(** * The multi-cluster controller of kismatic (pkg/controller/multicluster.go)

    A shallow embedding of [multiClusterController.Run] and
    [multiClusterController.newClusterController].

    The Go code is an event loop: one [select] statement merges the store's
    watch channel, a ticker and the context's Done channel, and each branch
    mutates the map [mcc.clusterControllers] (cluster name → send end of a
    buffered channel).  We model

    - the channels made by the loop as a heap ([chans]) of records holding the
      capacity, the number of queued notifications and the closed flag;
    - the map as a [gmap string chanref];
    - everything outside the loop (file system, executor constructor, the
      runtime's map iteration order) as an interface [Env] over an abstract
      [World];
    - every observable thing the loop does (log lines, file system calls, make,
      go, send, close) as an [action] appended to a [trace];
    - Go's run-time panics (close of a closed channel, send on a closed
      channel) as the [Panic] outcome. *)

From stdpp Require Import gmap strings list fin_maps.
From Stdlib Require Import NArith Strings.Byte.

Set Default Proof Using "Type".

(** ** The environment of the loop *)

(** What the controller is linked against.  [Cluster] is [store.Cluster] and
    [Cluster_Spec] its [Spec] field; [ForCluster] is [AssetsDir.ForCluster];
    the [os_], [filepath_] and [json_] functions are the Go standard library's;
    [newExecutor] is the [ExecutorCreator] stored in the controller.  [File]
    stands for the values of type [*os.File] and [Executor] for the values of
    the interface type of that name (nil included, in both).  An error is
    represented by its message, and the nil error by [None].
    [json_Unmarshal data] gives the value of the variable decoded into and the
    error.  [range_order] is the order in which one [for ... range] statement
    over a map visits the keys: Go leaves it unspecified, so it may depend on
    the world and changes it; the only law is that each key present when the
    loop starts is listed once. *)
Class Env := {
  World : Type;
  File : Type;
  Executor : Type;
  Cluster : Type;
  ClusterSpec : Type;
  Cluster_Spec : Cluster → ClusterSpec;
  ForCluster : string → string → string;
  filepath_Join : string → string → string;
  os_MkdirAll : string → N → World → World * option string;
  os_Create : string → World → World * (File * option string);
  newExecutor : string → string → File → World → World * (Executor * option string);
  json_Unmarshal : list byte → Cluster * option string;
  range_order : list string → World → World * list string;
  range_order_perm : ∀ ks w, (range_order ks w).2 ≡ₚ ks;
}.

(** const clusterControllerNotificationBuffer = 10 *)
Definition clusterControllerNotificationBuffer : nat := 10.

(** A channel of type [chan struct{}]: the elements carry no data, so the
    buffer is the number of queued elements. *)
Record chan := Chan { chan_cap : nat; chan_len : nat; chan_closed : bool }.

(** A channel value is a reference into the heap of channels. *)
Abbreviation chanref := nat (only parsing).

(** The lines written to [mcc.log], one constructor per call site, with the
    values formatted into the line. *)
Inductive logline :=
| LogStarted
| LogTick
| LogStopping
| LogUnmarshalErr (clusterName err : string)
| LogCreateErr (clusterName err : string)
| LogBufferFull (clusterName : string)
| LogGetAllErr (err : string).

(** How one iteration of the loop ends: with the next iteration, or with the
    [return] of [Run]. *)
Inductive control := Continue | Return.

Section Model.
Context {E : Env}.

(** The value built by [newClusterController] (the fields [log],
    [clusterStore] and [newProvisioner] are copies of the controller's own and
    are left out). *)
Record clusterController := {
  cc_clusterName : string;
  cc_clusterSpec : ClusterSpec;
  cc_clusterAssetsDir : string;
  cc_logFile : File;
  cc_executor : Executor;
}.

(** What the loop does, as seen from outside: a log line, a call of
    [newClusterController] and the calls it makes, [make], [go cc.run(ch)],
    a send that went through ([ASend]), a send given up for the default case
    ([ADrop]), and [close]. *)
Inductive action :=
| ALog (l : logline)
| ACall (clusterName : string)
| AMkdirAll (path : string) (perm : N)
| ACreate (path : string)
| ANewExecutor (clusterName dir : string) (logFile : File)
| AMake (c : chanref) (cap : nat)
| AGo (cc : option clusterController) (c : chanref)
| ASend (c : chanref)
| ADrop (c : chanref)
| AClose (c : chanref).

(** The controller ([assetsDir], [clusterControllers]) together with the
    heap of channels, the world and the trace of actions so far. *)
Record State := {
  assetsDir : string;
  clusterControllers : gmap string chanref;
  chans : list chan;
  world : World;
  trace : list action;
}.

Definition set_clusterControllers (m : gmap string chanref) (s : State) : State :=
  {| assetsDir := assetsDir s; clusterControllers := m; chans := chans s;
     world := world s; trace := trace s |}.
Definition set_chans (h : list chan) (s : State) : State :=
  {| assetsDir := assetsDir s; clusterControllers := clusterControllers s; chans := h;
     world := world s; trace := trace s |}.
Definition set_world (w : World) (s : State) : State :=
  {| assetsDir := assetsDir s; clusterControllers := clusterControllers s; chans := chans s;
     world := w; trace := trace s |}.
Definition add_trace (acts : list action) (s : State) : State :=
  {| assetsDir := assetsDir s; clusterControllers := clusterControllers s; chans := chans s;
     world := world s; trace := trace s ++ acts |}.

(** ** A state monad with panics *)

Inductive result (A : Type) :=
| Ok (a : A) (s : State)
| Panic (msg : string) (s : State).
Global Arguments Ok {A} a s.
Global Arguments Panic {A} msg s.

Definition M (A : Type) : Type := State → result A.

Global Instance M_ret : MRet M := λ A a s, Ok a s.
Global Instance M_bind : MBind M := λ A B f m s,
  match m s with
  | Ok a s' => f a s'
  | Panic msg s' => Panic msg s'
  end.

Definition get : M State := λ s, Ok s s.
Definition emit (a : action) : M unit := λ s, Ok tt (add_trace [a] s).

(** [os.MkdirAll], [os.Create] and [mcc.newExecutor] run in the world. *)
Definition MkdirAll (path : string) (perm : N) : M (option string) := λ s,
  let '(w, err) := os_MkdirAll path perm (world s) in
  Ok err (add_trace [AMkdirAll path perm] (set_world w s)).
Definition Create (path : string) : M (File * option string) := λ s,
  let '(w, r) := os_Create path (world s) in
  Ok r (add_trace [ACreate path] (set_world w s)).
Definition NewExecutor (clusterName dir : string) (logFile : File)
  : M (Executor * option string) := λ s,
  let '(w, r) := newExecutor clusterName dir logFile (world s) in
  Ok r (add_trace [ANewExecutor clusterName dir logFile] (set_world w s)).

(** [make(chan struct{}, cap)]: a fresh, empty, open channel. *)
Definition make_chan (cap : nat) : M chanref := λ s,
  let c := length (chans s) in
  Ok c (add_trace [AMake c cap] (set_chans (chans s ++ [Chan cap 0 false]) s)).

(** [close(ch)].  Closing a closed channel panics, and so does closing the nil
    channel (a reference outside the heap). *)
Definition close (c : chanref) : M unit := λ s,
  match chans s !! c with
  | Some ch =>
      if chan_closed ch then Panic "close of closed channel" (add_trace [AClose c] s)
      else Ok tt (add_trace [AClose c]
                    (set_chans (<[c := Chan (chan_cap ch) (chan_len ch) true]> (chans s)) s))
  | None => Panic "close of nil channel" (add_trace [AClose c] s)
  end.

(** The statement
<<
    select {
    case ch <- struct{}{}:
    default:
        mcc.log.Printf("buffer of cluster %s is full. dropping notification.", clusterName)
    }
>>
    A send on a closed channel is ready and panics; a send on a channel with
    room in its buffer is ready and enqueues; otherwise (buffer full, or nil
    channel) the default case runs. *)
Definition notify (clusterName : string) (c : chanref) : M unit := λ s,
  match chans s !! c with
  | Some ch =>
      if chan_closed ch then Panic "send on closed channel" (add_trace [ASend c] s)
      else if bool_decide (chan_len ch < chan_cap ch) then
        Ok tt (add_trace [ASend c]
                 (set_chans (<[c := Chan (chan_cap ch) (S (chan_len ch)) false]> (chans s)) s))
      else Ok tt (add_trace [ADrop c; ALog (LogBufferFull clusterName)] s)
  | None => Ok tt (add_trace [ADrop c; ALog (LogBufferFull clusterName)] s)
  end.

(** [mcc.clusterControllers[clusterName] = newChan] and
    [delete(mcc.clusterControllers, clusterName)]. *)
Definition map_store (clusterName : string) (c : chanref) : M unit := λ s,
  Ok tt (set_clusterControllers (<[clusterName := c]> (clusterControllers s)) s).
Definition map_delete (clusterName : string) : M unit := λ s,
  Ok tt (set_clusterControllers (delete clusterName (clusterControllers s)) s).

(** [go cc.run(newChan)]: the worker is started; what it does is not the
    loop's business. *)
Definition go_run (cc : option clusterController) (c : chanref) : M unit :=
  emit (AGo cc c).

Fixpoint for_each (ks : list string) (body : string → M unit) : M unit :=
  match ks with
  | [] => mret tt
  | k :: ks' => body k;; for_each ks' body
  end.

(** [for k, v := range m { body }] where the body may delete entries of [m]:
    the keys present when the loop starts are visited in the runtime's order,
    and an entry deleted before it is reached is not produced. *)
Definition range {A} (m : State → gmap string A) (body : string → A → M unit) : M unit := λ s,
  let '(w, ks) := range_order (map_to_list (m s)).*1 (world s) in
  for_each ks (λ k, s' ← get;
                    match m s' !! k with
                    | Some v => body k v
                    | None => mret tt
                    end) (set_world w s).

(** ** newClusterController *)

(** The permission bits 0700 (octal). *)
Definition mode_0700 : N := 7 * 8 * 8.

Definition newClusterController (clusterName : string) (cluster : Cluster)
  : M (option clusterController * option string) :=
  emit (ACall clusterName);;
  s ← get;
  let clusterAssetsDir := ForCluster (assetsDir s) clusterName in
  err ← MkdirAll clusterAssetsDir mode_0700;
  match err with
  | Some e => mret (None, Some ("error creating assets directory: " +:+ e))
  | None =>
    '(logFile, err) ← Create (filepath_Join clusterAssetsDir "kismatic.log");
    match err with
    | Some e => mret (None, Some ("error creating log file: " +:+ e))
    | None =>
      '(executor, err) ← NewExecutor clusterName (ForCluster (assetsDir s) clusterName) logFile;
      match err with
      | Some e => mret (None, Some ("error creating executor: " +:+ e))
      | None =>
        mret (Some {| cc_clusterName := clusterName;
                      cc_clusterSpec := Cluster_Spec cluster;
                      cc_clusterAssetsDir := clusterAssetsDir;
                      cc_logFile := logFile;
                      cc_executor := executor |}, None)
      end
    end
  end.

(** ** Run *)

(** What one iteration of the [for { select { ... } }] loop receives: a watch
    response ([resp.Key], [resp.Value], where [None] is the nil slice), a tick
    together with what [mcc.clusterStore.GetAll()] returns when called on that
    tick, or the closing of [ctx.Done()]. *)
Inductive event :=
| EvWatch (key : string) (value : option (list byte))
| EvTick (definedClusters : gmap string Cluster) (err : option string)
| EvDone.

(** The body shared by the watch case and the tick case: build the worker,
    and when that succeeds make its channel, register it and start it.  The
    result is the new channel, or [None] after the [continue]. *)
Definition create (clusterName : string) (cluster : Cluster) : M (option chanref) :=
  '(cc, err) ← newClusterController clusterName cluster;
  match err with
  | Some e => emit (ALog (LogCreateErr clusterName e));; mret None
  | None =>
    newChan ← make_chan clusterControllerNotificationBuffer;
    map_store clusterName newChan;;
    go_run cc newChan;;
    mret (Some newChan)
  end.

(** case resp := <-watch *)
Definition on_watch (clusterName : string) (value : option (list byte)) : M unit :=
  s ← get;
  match clusterControllers s !! clusterName, value with
  | Some ch, None =>
    (* found && resp.Value == nil *)
    close ch;;
    map_delete clusterName
  | Some ch, Some _ =>
    notify clusterName ch
  | None, _ =>
    let '(cluster, err) := json_Unmarshal (default [] value) in
    match err with
    | Some e => emit (ALog (LogUnmarshalErr clusterName e))
    | None =>
      ch ← create clusterName cluster;
      match ch with
      | None => mret tt
      | Some ch => notify clusterName ch
      end
    end
  end.

(** case <-ticker *)
Definition on_tick (definedClusters : gmap string Cluster) (err : option string) : M unit :=
  emit (ALog LogTick);;
  match err with
  | Some e => emit (ALog (LogGetAllErr e))
  | None =>
    range (λ _, definedClusters) (λ clusterName cluster,
      s ← get;
      match clusterControllers s !! clusterName with
      | Some _ => mret tt
      | None => create clusterName cluster;; mret tt
      end);;
    range clusterControllers (λ clusterName ch,
      match definedClusters !! clusterName with
      | Some _ => mret tt
      | None => close ch;; map_delete clusterName
      end);;
    range clusterControllers (λ clusterName ch, notify clusterName ch)
  end.

(** case <-ctx.Done() *)
Definition on_done : M unit :=
  emit (ALog LogStopping);;
  range clusterControllers (λ _ v, close v).

Definition step (e : event) : M control :=
  match e with
  | EvWatch key value => on_watch key value;; mret Continue
  | EvTick definedClusters err => on_tick definedClusters err;; mret Continue
  | EvDone => on_done;; mret Return
  end.

(** A worker takes one notification out of its channel (nothing happens when
    the channel is empty: the worker stays blocked, or leaves if the channel
    is closed).  This is the only thing a worker does to the state of the
    loop. *)
Definition worker_recv (c : chanref) : M unit := λ s,
  match chans s !! c with
  | Some ch =>
    Ok tt (set_chans (<[c := Chan (chan_cap ch) (pred (chan_len ch)) (chan_closed ch)]> (chans s)) s)
  | None => Ok tt s
  end.

(** What happens while [Run] runs: the loop's [select] receives an event, or
    a worker receives from its channel. *)
Inductive input :=
| Select (e : event)
| Recv (c : chanref).

(** The loop over a finite sequence of inputs: [Return] when the loop has
    returned, [Continue] when it waits in [select] for the next event. *)
Fixpoint loop (ins : list input) : M control :=
  match ins with
  | [] => mret Continue
  | Select e :: ins' =>
    c ← step e;
    match c with
    | Return => mret Return
    | Continue => loop ins'
    end
  | Recv c :: ins' => worker_recv c;; loop ins'
  end.

Definition Run (ins : list input) : M control :=
  emit (ALog LogStarted);;
  loop ins.

(** A controller with no worker yet. *)
Definition init (dir : string) (w : World) : State :=
  {| assetsDir := dir; clusterControllers := ∅; chans := []; world := w; trace := [] |}.

(** ** Predicates on states and traces *)

(** Every registered channel is an open channel of the heap, and no two
    cluster names share a channel. *)
Definition wf (s : State) : Prop :=
  (∀ k c, clusterControllers s !! k = Some c →
          ∃ ch, chans s !! c = Some ch ∧ chan_closed ch = false) ∧
  (∀ k1 k2 c, clusterControllers s !! k1 = Some c →
              clusterControllers s !! k2 = Some c → k1 = k2).

(** [c] is closed in the heap. *)
Definition closed (s : State) (c : chanref) : Prop :=
  ∃ ch, chans s !! c = Some ch ∧ chan_closed ch = true.

(** A send on [c] was attempted: it went through or the default case ran. *)
Definition attempt (c : chanref) (a : action) : Prop := a = ASend c ∨ a = ADrop c.

(** No send is attempted on a channel after its close. *)
Definition no_send_after_close (t : list action) : Prop :=
  ∀ t1 t2 c a, t = t1 ++ AClose c :: t2 → a ∈ t2 → ¬ attempt c a.

(** Every close recorded in the trace is visible in the heap, and no send
    was attempted after a close. *)
Definition tr_ok (s : State) : Prop :=
  (∀ c, AClose c ∈ trace s → closed s c) ∧ no_send_after_close (trace s).

(** Every channel has the capacity [clusterControllerNotificationBuffer] and
    holds no more than that, and every [make] recorded asked for it. *)
Definition caps_ok (s : State) : Prop :=
  (∀ c ch, chans s !! c = Some ch →
           chan_cap ch = clusterControllerNotificationBuffer ∧ chan_len ch ≤ chan_cap ch) ∧
  (∀ c cap, AMake c cap ∈ trace s → cap = clusterControllerNotificationBuffer).

(** What every piece of the loop keeps, from [s] to [s']. *)
Definition keeps (s s' : State) : Prop :=
  (∀ c, closed s c → closed s' c) ∧
  (tr_ok s → tr_ok s') ∧ (caps_ok s → caps_ok s') ∧ assetsDir s' = assetsDir s.

(** An action that neither closes a channel nor attempts a send. *)
Definition quiet (a : action) : Prop := ∀ c, a ≠ AClose c ∧ ¬ attempt c a.

(** [m] run in [s] does not panic, and its result and final state satisfy [Q]. *)
Definition runs {A} (m : M A) (s : State) (Q : A → State → Prop) : Prop :=
  ∃ a s', m s = Ok a s' ∧ Q a s'.

(** What the first loop of a tick did for a cluster [k] that had no worker:
    [newClusterController] was called, and either its error was logged and
    [k] still has no worker in [s], or a worker was started on the channel
    registered for [k] in [s]. *)
Definition created (s : State) (acts : list action) (k : string) : Prop :=
  ACall k ∈ acts ∧
  ((∃ e, ALog (LogCreateErr k e) ∈ acts ∧ clusterControllers s !! k = None) ∨
   (∃ c cc, clusterControllers s !! k = Some c ∧ AGo cc c ∈ acts)).

End Model.

(** ** Reading a trace *)

Section Observations.
Context {E : Env}.

(** The cluster names [newClusterController] was called for, the channels
    closed, the channels a send was attempted on (delivered or dropped) and
    the channels handed to a started worker, each in the order of the
    trace. *)
Definition calls (t : list action) : list string :=
  omap (λ a, match a with ACall k => Some k | _ => None end) t.
Definition closes (t : list action) : list chanref :=
  omap (λ a, match a with AClose c => Some c | _ => None end) t.
Definition attempts (t : list action) : list chanref :=
  omap (λ a, match a with ASend c | ADrop c => Some c | _ => None end) t.
Definition started (t : list action) : list chanref :=
  omap (λ a, match a with AGo _ c => Some c | _ => None end) t.

(** The calls [newClusterController] makes after it has been entered. *)
Definition fs_action (a : action) : Prop :=
  match a with
  | AMkdirAll _ _ | ACreate _ | ANewExecutor _ _ _ => True
  | _ => False
  end.

(** The map of workers and the workers started so far agree: every entry's
    channel was handed to a worker built for that cluster name; every worker
    started is a non-nil worker whose directory is [ForCluster] of the root
    and its name, and its channel is either closed by now or registered
    under its name; and the channels handed to workers are the channels of
    the heap, in the order they were made. *)
Definition workers_ok (s : State) : Prop :=
  (∀ k c, clusterControllers s !! k = Some c →
          ∃ w, AGo (Some w) c ∈ trace s ∧ cc_clusterName w = k) ∧
  (∀ cc c, AGo cc c ∈ trace s →
           ∃ w, cc = Some w ∧
                cc_clusterAssetsDir w = ForCluster (assetsDir s) (cc_clusterName w) ∧
                (AClose c ∈ trace s ∨ clusterControllers s !! cc_clusterName w = Some c)) ∧
  started (trace s) = seq 0 (length (chans s)).

(** Whenever [m] run in [s] ends without a panic, its result and final state
    satisfy [Q]. *)
Definition post {A} (m : M A) (s : State) (Q : A → State → Prop) : Prop :=
  ∀ a s', m s = Ok a s' → Q a s'.

End Observations.

(** ** A concrete environment

    A small world used to run the model: the file system refuses to make the
    directory of the cluster "bad" and the log file of the cluster "nolog",
    the executor constructor refuses the cluster "noexec", the decoder accepts
    every input but the empty one, and maps are visited in the order of
    [map_to_list].  The world counts the calls made. *)
Definition demo_MkdirAll (path : string) (perm : N) (w : nat) : nat * option string :=
  (S w, if String.eqb path "/assets/bad" then Some "mkdir /assets/bad: permission denied" else None).
Definition demo_Create (path : string) (w : nat) : nat * (string * option string) :=
  (S w, if String.eqb path "/assets/nolog/kismatic.log"
        then ("", Some "open /assets/nolog/kismatic.log: permission denied")
        else (path, None)).
Definition demo_newExecutor (clusterName dir logFile : string) (w : nat)
  : nat * (string * option string) :=
  (S w, if String.eqb clusterName "noexec" then ("", Some "no executor") else (clusterName, None)).
Definition demo_Unmarshal (data : list byte) : list byte * option string :=
  match data with
  | [] => ([], Some "unexpected end of JSON input")
  | _ => (data, None)
  end.

Definition demo_env : Env := {|
  World := nat;
  File := string;
  Executor := string;
  Cluster := list byte;
  ClusterSpec := list byte;
  Cluster_Spec := λ c, c;
  ForCluster := λ root name, root +:+ "/" +:+ name;
  filepath_Join := λ dir name, dir +:+ "/" +:+ name;
  os_MkdirAll := demo_MkdirAll;
  os_Create := demo_Create;
  newExecutor := demo_newExecutor;
  json_Unmarshal := demo_Unmarshal;
  range_order := λ ks w, (w, ks);
  range_order_perm := λ ks w, Permutation_refl ks;
|}.

Definition demo_init : @State demo_env := @init demo_env "/assets" 0.

Definition demo_spec : list byte := [x7b; x7d].


(** One worker, for the cluster "a", with an empty channel. *)
Definition demo_one : @State demo_env :=
  {| assetsDir := "/assets"; clusterControllers := {[ "a" := 0 ]};
     chans := [Chan 10 0 false]; world := (0 : @World demo_env); trace := [] |}.

(** Two workers, for "a" and "b". *)
Definition demo_two : @State demo_env :=
  {| assetsDir := "/assets"; clusterControllers := {[ "a" := 0; "b" := 1 ]};
     chans := [Chan 10 0 false; Chan 10 3 false]; world := (0 : @World demo_env);
     trace := [] |}.

(** A snapshot in which "a" is defined, "b" is not, and two clusters are new:
    "c", and "bad", whose directory cannot be made. *)
Definition demo_snapshot : gmap string (@Cluster demo_env) :=
  {[ "a" := demo_spec; "c" := demo_spec; "bad" := demo_spec ]}.

(** ** Tactics *)

(** Unfold the monad's operations and the primitive statements. *)
Ltac unfold_M :=
  unfold mbind, M_bind, mret, M_ret, emit, get, go_run, map_store, map_delete,
    make_chan, MkdirAll, Create, NewExecutor in *.


(** [x ∉ [a; b; ...]] when [x] has another constructor than each element. *)
Ltac solve_notin :=
  let Hin := fresh "Hin" in
  intros Hin;
  repeat (apply elem_of_cons in Hin as [Hin|Hin]; [discriminate|]);
  by apply elem_of_nil in Hin.


(** [quiet a] and [Forall quiet l] for explicit actions and lists. *)
Ltac solve_quiet :=
  repeat match goal with
    | |- Forall _ [] => constructor
    | |- Forall _ (_ :: _) => constructor
    | |- Forall _ (_ ++ _) => apply Forall_app; split
    | |- quiet _ =>
        solve [ intros ?; split; [discriminate|intros [?|?]; discriminate] ]
    | |- _ => assumption
    end.


(** Compute [calls], [closes], [attempts] and [started] on explicit lists. *)
Ltac proj :=
  unfold calls, closes, attempts, started in *;
  repeat (progress (simpl; rewrite ?omap_app)); simpl.

(** * Proofs *)

Section Proofs.
Context {E : Env}.

Implicit Types (s : State) (c : chanref) (k clusterName : string) (a : action).

(** ** The monad *)

Lemma runs_ret {A} (x : A) s (Q : A → State → Prop) : Q x s → runs (mret x) s Q.
Proof. intros HQ. exists x, s. done. Qed.

Lemma runs_bind {A B} (m : M A) (f : A → M B) s (Q : B → State → Prop) :
  runs m s (λ x s', runs (f x) s' Q) → runs (m ≫= f) s Q.
Proof.
  intros (x & s' & Hm & y & s'' & Hf & HQ). exists y, s''. split; [|done].
  unfold mbind, M_bind. by rewrite Hm.
Qed.

Lemma runs_mono {A} (m : M A) s (Q Q' : A → State → Prop) :
  runs m s Q → (∀ x s', Q x s' → Q' x s') → runs m s Q'.
Proof. intros (x & s' & Hm & HQ) HQQ. exists x, s'. eauto. Qed.

Lemma runs_get {B} (f : State → M B) s (Q : B → State → Prop) :
  runs (f s) s Q → runs (get ≫= f) s Q.
Proof. intros Hf. apply runs_bind. exists s, s. done. Qed.

(** A loop invariant indexed by the keys already visited. *)
Lemma runs_for_each (I : list string → State → Prop) ks body s :
  I [] s →
  (∀ pre k post s', ks = pre ++ k :: post → I pre s' →
                    runs (body k) s' (λ _ s'', I (pre ++ [k]) s'')) →
  runs (for_each ks body) s (λ _ s', I ks s').
Proof.
  revert I s. induction ks as [|k ks IH]; intros I s H0 Hbody; simpl.
  - by apply runs_ret.
  - apply runs_bind. eapply runs_mono; [apply (Hbody [] k ks s); done|].
    intros [] s' HI; simpl in HI.
    apply (IH (λ pre, I (k :: pre))); [done|].
    intros pre k' post s'' Heq HI'.
    apply (Hbody (k :: pre) k' post); [by rewrite Heq|done].
Qed.

(** [range] visits each key of the map once. *)
Lemma runs_range {A} (m : State → gmap string A) body s (I : list string → State → Prop) :
  (∀ w ks, ks ≡ₚ (map_to_list (m s)).*1 →
     I [] (set_world w s) ∧
     (∀ pre k post s', ks = pre ++ k :: post → I pre s' →
        runs (s'' ← get; match m s'' !! k with Some v => body k v | None => mret tt end) s'
             (λ _ s'', I (pre ++ [k]) s''))) →
  runs (range m body) s (λ _ s', ∃ ks, ks ≡ₚ (map_to_list (m s)).*1 ∧ I ks s').
Proof.
  intros HI. unfold range, runs; cbv beta.
  pose proof (range_order_perm (map_to_list (m s)).*1 (world s)) as Hperm.
  destruct (range_order _ _) as [w ks]; simpl in Hperm.
  destruct (HI w ks Hperm) as [H0 Hbody].
  destruct (runs_for_each I ks _ (set_world w s) H0 Hbody) as ([] & s' & Hr & HI').
  exists tt, s'. eauto.
Qed.

(** ** Traces *)

Lemma nsac_app (t acts : list action) :
  no_send_after_close t →
  no_send_after_close acts →
  (∀ c a, AClose c ∈ t → a ∈ acts → ¬ attempt c a) →
  no_send_after_close (t ++ acts).
Proof.
  intros Ht Hacts Hcross t1 t2 c a Heq Hin.
  apply app_eq_app in Heq as [l [[-> Hl]|[-> Hl]]].
  - destruct l as [|x l]; simpl in Hl.
    + subst acts. by apply (Hacts [] t2 c a).
    + injection Hl as <- ->. apply elem_of_app in Hin as [Hin|Hin].
      * by apply (Ht t1 l c a).
      * apply Hcross; [|done]. apply elem_of_app; right. by left.
  - by apply (Hacts l t2 c a).
Qed.

Lemma nsac_no_close (acts : list action) :
  (∀ c, AClose c ∉ acts) → no_send_after_close acts.
Proof.
  intros Hno t1 t2 c a -> _. exfalso. apply (Hno c).
  apply elem_of_app; right. by left.
Qed.

Lemma nsac_no_attempt (acts : list action) :
  (∀ c a, a ∈ acts → ¬ attempt c a) → no_send_after_close acts.
Proof.
  intros Hno t1 t2 c a -> Hin. apply Hno.
  apply elem_of_app; right. by right.
Qed.

Lemma nsac_quiet (t acts : list action) :
  no_send_after_close t → Forall quiet acts → no_send_after_close (t ++ acts).
Proof.
  intros Ht Hq. rewrite Forall_forall in Hq.
  apply nsac_app; [done| |].
  - apply nsac_no_attempt. intros c a Hin. by apply Hq.
  - intros c a _ Hin. by apply Hq.
Qed.

Lemma quiet_not_close (acts : list action) c : Forall quiet acts → AClose c ∉ acts.
Proof.
  rewrite Forall_forall. intros Hq Hin. by destruct (Hq _ Hin c).
Qed.

Lemma quiet_not_attempt (acts : list action) c a : Forall quiet acts → a ∈ acts → ¬ attempt c a.
Proof.
  rewrite Forall_forall. intros Hq Hin. by destruct (Hq _ Hin c).
Qed.

(** ** keeps *)

Lemma keeps_refl s : keeps s s.
Proof. by unfold keeps. Qed.

Lemma keeps_trans s1 s2 s3 : keeps s1 s2 → keeps s2 s3 → keeps s1 s3.
Proof.
  intros (Hm & Ht & Hc & Hd) (Hm' & Ht' & Hc' & Hd'). unfold keeps.
  split_and!; [auto|tauto|tauto|congruence].
Qed.

(** Actions that touch no channel keep everything, whatever they do to the
    world. *)
Lemma keeps_quiet s s' acts :
  chans s' = chans s → assetsDir s' = assetsDir s →
  trace s' = trace s ++ acts → Forall quiet acts →
  (∀ c cap, AMake c cap ∉ acts) →
  keeps s s'.
Proof.
  intros Hch Hd Htr Hq Hmk. unfold keeps, tr_ok, caps_ok, closed.
  rewrite Hch, Htr. split_and!; [done| | |done].
  - intros [Hcl Hns]. split; [|by apply nsac_quiet].
    intros c [Hin|Hin]%elem_of_app; [by apply Hcl|].
    by apply quiet_not_close in Hin.
  - intros [Hcap Hmake]. split; [done|].
    intros c cap [Hin|Hin]%elem_of_app; [by eapply Hmake|].
    by apply Hmk in Hin.
Qed.

Lemma keeps_set_world s w : keeps s (set_world w s).
Proof. by unfold keeps. Qed.

(** ** newClusterController *)

(** The factory touches the world and the trace only; it returns a worker
    and no error, or no worker and an error. *)
Lemma newClusterController_runs k cl s :
  runs (newClusterController k cl) s (λ r s',
    clusterControllers s' = clusterControllers s ∧ chans s' = chans s ∧
    assetsDir s' = assetsDir s ∧
    ∃ acts, trace s' = trace s ++ ACall k :: acts ∧ Forall quiet acts ∧
            (∀ c cap, AMake c cap ∉ acts) ∧
            ((∃ e, r = (None, Some e)) ∨ (∃ cc, r = (Some cc, None)))).
Proof.
  unfold runs, newClusterController. unfold_M. simpl.
  destruct (os_MkdirAll _ _ _) as [w1 [e1|]]; simpl.
  { eexists _, _. split; [done|]. simpl. split_and!; try done.
    eexists [_]. rewrite <- app_assoc. split_and!; [done| | |by eauto].
    - solve_quiet.
    - intros c cap. solve_notin. }
  destruct (os_Create _ _) as [w2 [logFile [e2|]]]; simpl.
  { eexists _, _. split; [done|]. simpl. split_and!; try done.
    eexists [_; _]. rewrite <- !app_assoc. split_and!; [done| | |by eauto].
    - solve_quiet.
    - intros c cap. solve_notin. }
  destruct (newExecutor _ _ _ _) as [w3 [executor [e3|]]]; simpl.
  { eexists _, _. split; [done|]. simpl. split_and!; try done.
    eexists [_; _; _]. rewrite <- !app_assoc. split_and!; [done| | |by eauto].
    - solve_quiet.
    - intros c cap. solve_notin. }
  eexists _, _. split; [done|]. simpl. split_and!; try done.
  eexists [_; _; _]. rewrite <- !app_assoc. split_and!; [done| | |by eauto].
  - solve_quiet.
  - intros c cap. solve_notin.
Qed.

(** ** Channels *)

Lemma closed_insert_other s c ch x c' :
  chans s !! c = Some ch → chan_closed ch = false →
  closed s c' → closed (set_chans (<[c:=x]> (chans s)) s) c'.
Proof.
  intros Hch Hopen (ch' & Hch' & Hcl'). exists ch'. split; [|done]. simpl.
  rewrite list_lookup_insert_ne; [done|]. intros ->. congruence.
Qed.

Lemma wf_insert_open s c ch n :
  wf s → chans s !! c = Some ch →
  wf (set_chans (<[c:=Chan (chan_cap ch) n false]> (chans s)) s).
Proof.
  intros [Hopen Hinj] Hch. split; [|done]. simpl. intros k' c' Hk'.
  destruct (Hopen k' c' Hk') as (ch' & Hch' & Hcl').
  destruct (decide (c' = c)) as [->|Hne].
  - eexists. rewrite list_lookup_insert_eq; [done|]. by eapply lookup_lt_Some.
  - exists ch'. by rewrite list_lookup_insert_ne.
Qed.

Lemma caps_insert s c ch n b :
  caps_ok s → chans s !! c = Some ch → n ≤ chan_cap ch →
  caps_ok (set_chans (<[c:=Chan (chan_cap ch) n b]> (chans s)) s).
Proof.
  intros [Hcap Hmk] Hch Hn. split; [|done]. simpl. intros c' ch' Hc'.
  apply list_lookup_insert_Some in Hc' as [(-> & <- & _)|[_ Hc']]; [|by eapply Hcap].
  simpl. split; [|done]. by destruct (Hcap _ _ Hch).
Qed.

(** A send attempted on an open channel keeps the trace in order. *)
Lemma tr_ok_attempt s s' c ch acts :
  tr_ok s → chans s !! c = Some ch → chan_closed ch = false →
  (∀ c', closed s c' → closed s' c') →
  trace s' = trace s ++ acts →
  (∀ c', AClose c' ∉ acts) →
  (∀ a c', a ∈ acts → attempt c' a → c' = c) →
  tr_ok s'.
Proof.
  intros [Hcl Hns] Hch Hopen Hmono Htr Hnc Hatt. unfold tr_ok. rewrite Htr. split.
  - intros c' [Hin|Hin]%elem_of_app; [by apply Hmono, Hcl|]. by apply Hnc in Hin.
  - apply nsac_app; [done|by apply nsac_no_close|].
    intros c' a Hin Ha Hc'. apply (Hatt a c' Ha) in Hc' as ->.
    destruct (Hcl c Hin) as (ch' & ? & ?). congruence.
Qed.

Lemma notify_spec k c s :
  wf s → clusterControllers s !! k = Some c →
  runs (notify k c) s (λ _ s',
    wf s' ∧ keeps s s' ∧ clusterControllers s' = clusterControllers s ∧
    ∃ acts, trace s' = trace s ++ acts ∧
            (acts = [ASend c] ∨ acts = [ADrop c; ALog (LogBufferFull k)])).
Proof.
  intros Hwf Hk. destruct (proj1 Hwf k c Hk) as (ch & Hch & Hopen).
  unfold runs, notify. rewrite Hch, Hopen. case_bool_decide as Hlen.
  - eexists tt, _. split; [done|]. split_and!; [by apply wf_insert_open| |done|by eauto].
    unfold keeps. split_and!; [by intros c'; eapply closed_insert_other| | |done].
    + intros Htr. eapply (tr_ok_attempt s _ c ch [ASend c]); try done.
      * intros c' Hc'. by eapply closed_insert_other.
      * intros c'. solve_notin.
      * intros a c' ->%list_elem_of_singleton [Heq|Heq]; congruence.
    + intros Hcaps. apply (caps_insert s c ch (S (chan_len ch)) false) in Hcaps; [|done|lia].
      destruct Hcaps as [Hcap Hmk]. split; [done|]. simpl.
      intros c' cap [Hin|Hin]%elem_of_app; [by eapply Hmk|]. revert Hin. solve_notin.
  - eexists tt, _. split; [done|]. split_and!; [done| |done|by eauto].
    unfold keeps. split_and!; [done| | |done].
    + intros Htr. eapply (tr_ok_attempt s _ c ch [ADrop c; ALog (LogBufferFull k)]); try done.
      * intros c'. solve_notin.
      * intros a c' [->|[->|[]%elem_of_nil]%elem_of_cons]%elem_of_cons [Heq|Heq]; congruence.
    + intros [Hcap Hmk]. split; [done|]. simpl.
      intros c' cap [Hin|Hin]%elem_of_app; [by eapply Hmk|]. revert Hin. solve_notin.
Qed.

Lemma close_spec c ch s :
  chans s !! c = Some ch → chan_closed ch = false →
  close c s = Ok tt (add_trace [AClose c]
                (set_chans (<[c:=Chan (chan_cap ch) (chan_len ch) true]> (chans s)) s)).
Proof. intros Hch Hopen. unfold close. by rewrite Hch, Hopen. Qed.

Lemma closed_after_close s c ch x :
  chans s !! c = Some ch →
  closed (add_trace x (set_chans (<[c:=Chan (chan_cap ch) (chan_len ch) true]> (chans s)) s)) c.
Proof.
  intros Hch. exists (Chan (chan_cap ch) (chan_len ch) true). split; [|done]. simpl.
  rewrite list_lookup_insert_eq; [done|]. by eapply lookup_lt_Some.
Qed.

Lemma keeps_close c ch s :
  chans s !! c = Some ch → chan_closed ch = false →
  keeps s (add_trace [AClose c]
            (set_chans (<[c:=Chan (chan_cap ch) (chan_len ch) true]> (chans s)) s)).
Proof.
  intros Hch Hopen.
  assert (∀ c', closed s c' → closed (add_trace [AClose c]
            (set_chans (<[c:=Chan (chan_cap ch) (chan_len ch) true]> (chans s)) s)) c') as Hmono.
  { intros c' Hc'. by apply (closed_insert_other s c ch _ c'). }
  unfold keeps. split_and!; [done| | |done].
  - intros [Hcl Hns]. split; simpl.
    + intros c' [Hin|Hin]%elem_of_app; [by apply Hmono, Hcl|].
      apply list_elem_of_singleton in Hin. injection Hin as ->.
      by apply closed_after_close.
    + apply nsac_app; [done| |].
      * apply nsac_no_attempt. intros c' a ->%list_elem_of_singleton [?|?]; done.
      * intros c' a _ ->%list_elem_of_singleton [?|?]; done.
  - intros Hcaps. apply (caps_insert s c ch (chan_len ch) true) in Hcaps; [|done|].
    + destruct Hcaps as [Hcap Hmk]. split; [done|]. simpl.
      intros c' cap [Hin|Hin]%elem_of_app; [by eapply Hmk|]. revert Hin. solve_notin.
    + by destruct (proj1 Hcaps _ _ Hch).
Qed.

Lemma close_delete_spec k c s :
  wf s → clusterControllers s !! k = Some c →
  runs (close c;; map_delete k) s (λ _ s',
    wf s' ∧ keeps s s' ∧ clusterControllers s' = delete k (clusterControllers s) ∧
    trace s' = trace s ++ [AClose c] ∧ closed s' c).
Proof.
  intros [Hopen Hinj] Hk. destruct (Hopen k c Hk) as (ch & Hch & Hcl).
  unfold runs. unfold_M. rewrite (close_spec c ch s Hch Hcl).
  eexists tt, _. split; [done|]. split_and!; [| |done|done|].
  - split; simpl.
    + intros k' c' [Hne Hk']%lookup_delete_Some.
      destruct (Hopen k' c' Hk') as (ch' & Hch' & Hcl'). exists ch'. split; [|done].
      rewrite list_lookup_insert_ne; [done|]. intros ->. by apply Hne, (Hinj k k' c').
    + intros k1 k2 c' [_ H1]%lookup_delete_Some [_ H2]%lookup_delete_Some. eauto.
  - apply (keeps_close c ch s Hch Hcl).
  - by apply (closed_after_close s c ch).
Qed.

Lemma create_spec k cl s :
  wf s → clusterControllers s !! k = None →
  runs (create k cl) s (λ r s',
    wf s' ∧ keeps s s' ∧
    ∃ acts, trace s' = trace s ++ ACall k :: acts ∧ Forall quiet acts ∧
      ((r = None ∧ clusterControllers s' = clusterControllers s ∧
        ∃ e, ALog (LogCreateErr k e) ∈ acts) ∨
       (∃ cc, r = Some (length (chans s)) ∧
              clusterControllers s' = <[k:=length (chans s)]> (clusterControllers s) ∧
              chans s' = chans s ++ [Chan clusterControllerNotificationBuffer 0 false] ∧
              AGo cc (length (chans s)) ∈ acts))).
Proof.
  intros Hwf Hk. unfold create. apply runs_bind.
  eapply runs_mono; [apply newClusterController_runs|].
  intros [cc err] s1 (Hreg & Hch & Hdir & acts & Htr & Hq & Hmk & Hr).
  assert (keeps s s1) as Hkeep1.
  { apply (keeps_quiet s s1 (ACall k :: acts)); [done|done|done|solve_quiet|].
    intros c cap [?|Hin]%elem_of_cons; [done|]. by apply Hmk in Hin. }
  assert (wf s1) as Hwf1.
  { destruct Hwf as [Hopen Hinj]. split; rewrite Hreg; [|done]. by rewrite Hch. }
  destruct Hr as [[e [= -> ->]]|[cc' [= -> ->]]].
  - unfold runs. unfold_M. simpl. eexists None, _. split; [done|]. split_and!; [done| |].
    + eapply keeps_trans; [done|].
      apply (keeps_quiet _ _ [ALog (LogCreateErr k e)]); [done|done|done|solve_quiet|].
      intros c cap. solve_notin.
    + exists (acts ++ [ALog (LogCreateErr k e)]). simpl. rewrite Htr, <- app_assoc. simpl.
      split_and!; [done|solve_quiet|]. left. split_and!; [done|done|].
      exists e. apply elem_of_app; right. by left.
  - unfold runs. unfold_M. simpl. eexists (Some _), _. split; [done|].
    rewrite Hch, Hreg. split_and!.
    + destruct Hwf as [Hopen Hinj]. split; simpl.
      * intros k' c' [[<- <-]|[Hne Hk']]%lookup_insert_Some.
        -- eexists. split; [apply list_lookup_middle; done|done].
        -- destruct (Hopen k' c' Hk') as (ch' & Hch' & Hcl'). exists ch'.
           split; [|done]. by apply lookup_app_l_Some.
      * intros k1 k2 c' [[<- <-]|[Hne1 H1]]%lookup_insert_Some
                        [[<- Heq]|[Hne2 H2]]%lookup_insert_Some; try done.
        -- destruct (Hopen _ _ H2) as (ch' & Hch' & _).
           apply lookup_lt_Some in Hch'. lia.
        -- destruct (Hopen _ _ H1) as (ch' & Hch' & _).
           apply lookup_lt_Some in Hch'. lia.
        -- eauto.
    + eapply keeps_trans; [done|]. unfold keeps. split_and!; [| | |done].
      * intros c (ch' & Hch' & Hcl'). exists ch'. split; [|done]. simpl.
        rewrite Hch in Hch'. by apply lookup_app_l_Some.
      * intros [Hcl Hns]. split; simpl.
        -- intros c [[Hin|Hin]%elem_of_app|Hin]%elem_of_app.
           ++ destruct (Hcl c Hin) as (ch' & Hch' & Hcl'). exists ch'. split; [|done].
              simpl. rewrite Hch in Hch'. by apply lookup_app_l_Some.
           ++ revert Hin. solve_notin.
           ++ revert Hin. solve_notin.
        -- rewrite <- app_assoc. apply nsac_quiet; [done|solve_quiet].
      * intros [Hcap Hmake]. split; simpl.
        -- intros c ch' [[_ Hc]|[_ <-]]%lookup_snoc_Some.
           ++ rewrite <- Hch in Hc. by eapply Hcap.
           ++ simpl. split; [done|lia].
        -- intros c cap [[Hin|Hin]%elem_of_app|Hin]%elem_of_app; [by eapply Hmake| |].
           ++ by apply list_elem_of_singleton in Hin as [= _ ->].
           ++ revert Hin. solve_notin.
    + exists (acts ++ [AMake (length (chans s)) clusterControllerNotificationBuffer;
                       AGo (Some cc') (length (chans s))]).
      simpl. rewrite Htr, <- !app_assoc. simpl.
      split_and!; [done|solve_quiet|]. right. exists (Some cc'). split_and!; try done.
      apply elem_of_app; right. right. by left.
Qed.

(** ** The watch case *)

Lemma on_watch_delete k c s :
  wf s → clusterControllers s !! k = Some c →
  runs (on_watch k None) s (λ _ s',
    wf s' ∧ keeps s s' ∧ clusterControllers s' = delete k (clusterControllers s) ∧
    trace s' = trace s ++ [AClose c] ∧ closed s' c).
Proof.
  intros Hwf Hk. unfold on_watch. apply runs_get. rewrite Hk.
  by apply close_delete_spec.
Qed.

Lemma on_watch_update k v c s :
  clusterControllers s !! k = Some c →
  on_watch k (Some v) s = notify k c s.
Proof. intros Hk. unfold on_watch. unfold_M. by rewrite Hk. Qed.

Lemma on_watch_spec k v s :
  wf s → runs (on_watch k v) s (λ _ s', wf s' ∧ keeps s s').
Proof.
  intros Hwf. destruct (clusterControllers s !! k) as [c|] eqn:Hk.
  - destruct v as [v|].
    + unfold runs. rewrite (on_watch_update k v c s Hk).
      eapply runs_mono; [by apply notify_spec|]. by intros [] s' (? & ? & _).
    + eapply runs_mono; [by apply on_watch_delete|]. by intros [] s' (? & ? & _).
  - unfold on_watch. apply runs_get. rewrite Hk.
    destruct (json_Unmarshal _) as [cluster [e|]].
    + unfold runs, emit. eexists tt, _. split; [done|]. split; [done|].
      apply (keeps_quiet _ _ [ALog (LogUnmarshalErr k e)]); [done|done|done|solve_quiet|].
      intros c cap. solve_notin.
    + apply runs_bind. eapply runs_mono; [by apply create_spec|].
      intros r s1 (Hwf1 & Hkeep1 & acts & Htr & Hq & [(-> & Hreg & _)|(cc & -> & Hreg & _)]).
      * by apply runs_ret.
      * eapply runs_mono; [apply notify_spec; [done|]|].
        -- rewrite Hreg. apply lookup_insert_eq.
        -- intros [] s2 (Hwf2 & Hkeep2 & _). split; [done|]. by eapply keeps_trans.
Qed.

(** ** The tick case *)

Lemma elem_of_keys {A} (m : gmap string A) k :
  k ∈ (map_to_list m).*1 ↔ is_Some (m !! k).
Proof.
  rewrite list_elem_of_fmap. split.
  - intros ([k' v] & -> & Hin). apply elem_of_map_to_list in Hin. by exists v.
  - intros [v Hv]. exists (k, v). split; [done|]. by apply elem_of_map_to_list.
Qed.

Lemma keys_perm_NoDup {A} (m : gmap string A) ks :
  ks ≡ₚ (map_to_list m).*1 → NoDup ks.
Proof. intros ->. apply NoDup_fst_map_to_list. Qed.

Lemma keys_perm_elem {A} (m : gmap string A) ks k :
  ks ≡ₚ (map_to_list m).*1 → k ∈ ks ↔ is_Some (m !! k).
Proof. intros ->. apply elem_of_keys. Qed.

Lemma NoDup_split_notin (pre post : list string) k :
  NoDup (pre ++ k :: post) → k ∉ pre.
Proof.
  intros (_ & Hdisj & _)%NoDup_app Hin. apply (Hdisj k Hin). by left.
Qed.

Lemma tick_create_phase (m : gmap string Cluster) s0 :
  wf s0 →
  runs (range (λ _, m) (λ clusterName cluster,
          s ← get;
          match clusterControllers s !! clusterName with
          | Some _ => mret tt
          | None => create clusterName cluster;; mret tt
          end)) s0
    (λ _ s, wf s ∧ keeps s0 s ∧
       ∃ acts, trace s = trace s0 ++ acts ∧ Forall quiet acts ∧
         (∀ k c, clusterControllers s0 !! k = Some c → clusterControllers s !! k = Some c) ∧
         (∀ k, clusterControllers s0 !! k = None → m !! k = None →
               clusterControllers s !! k = None) ∧
         (∀ k, is_Some (m !! k) → clusterControllers s0 !! k = None → created s acts k)).
Proof.
  intros Hwf. eapply runs_mono.
  - apply (runs_range _ _ s0 (λ pre s, wf s ∧ keeps s0 s ∧
       ∃ acts, trace s = trace s0 ++ acts ∧ Forall quiet acts ∧
         (∀ k c, clusterControllers s0 !! k = Some c → clusterControllers s !! k = Some c) ∧
         (∀ k, clusterControllers s0 !! k = None → k ∉ pre →
               clusterControllers s !! k = None) ∧
         (∀ k, k ∈ pre → clusterControllers s0 !! k = None → created s acts k))).
    intros w ks Hperm. cbv beta in Hperm. split.
    + split_and!; [done|apply keeps_set_world|]. exists []. simpl. rewrite app_nil_r.
      split_and!; [done|constructor|done|done|]. by intros k []%elem_of_nil.
    + intros pre k post s Hks (Hwfs & Hkeep & acts & Htr & Hq & P1 & P2 & P3).
      assert (k ∉ pre) as Hnotin.
      { eapply NoDup_split_notin. rewrite <- Hks. by eapply keys_perm_NoDup. }
      assert (is_Some (m !! k)) as [cl Hcl].
      { eapply (keys_perm_elem m ks); [done|]. rewrite Hks.
        apply elem_of_app; right. by left. }
      apply runs_get. rewrite Hcl. apply runs_get.
      destruct (clusterControllers s !! k) as [c|] eqn:Hk.
      * apply runs_ret. split_and!; [done|done|]. exists acts.
        split_and!; [done|done|done| |].
        -- intros k' Hk0 Hnin. apply P2; [done|]. intros Hin. apply Hnin.
           apply elem_of_app; by left.
        -- intros k' [Hin|Hin]%elem_of_app Hk0; [by apply P3|].
           apply list_elem_of_singleton in Hin as ->. rewrite P2 in Hk; done.
      * assert (clusterControllers s0 !! k = None) as Hk0.
        { destruct (clusterControllers s0 !! k) as [c|] eqn:Hk0; [|done].
          apply P1 in Hk0. congruence. }
        apply runs_bind. eapply runs_mono; [by apply create_spec|].
        intros r s1 (Hwf1 & Hkeep1 & acts1 & Htr1 & Hq1 & Hr). apply runs_ret.
        assert (∀ k', k' ≠ k → clusterControllers s1 !! k' = clusterControllers s !! k')
          as Hother.
        { intros k' Hne. destruct Hr as [(_ & -> & _)|(cc & _ & -> & _)]; [done|].
          by rewrite lookup_insert_ne. }
        split_and!; [done|by eapply keeps_trans|]. exists (acts ++ ACall k :: acts1).
        split_and!.
        -- by rewrite Htr1, Htr, <- app_assoc.
        -- solve_quiet.
        -- intros k' c' H0. rewrite Hother; [by apply P1|]. intros ->. congruence.
        -- intros k' H0 Hnin. rewrite Hother; [apply P2; [done|]|].
           ++ intros Hin. apply Hnin. apply elem_of_app; by left.
           ++ intros ->. apply Hnin. apply elem_of_app; right. by left.
        -- intros k' [Hin|Hin]%elem_of_app H0.
           ++ assert (k' ≠ k) as Hne by (by intros ->).
              destruct (P3 k' Hin H0) as [Hcall Hres]. split.
              { apply elem_of_app; by left. }
              rewrite Hother; [|done].
              destruct Hres as [(e & Hlog & Hnone)|(c & cc & Hsome & Hgo)].
              ** left. exists e. split; [|done]. apply elem_of_app; by left.
              ** right. exists c, cc. split; [done|]. apply elem_of_app; by left.
           ++ apply list_elem_of_singleton in Hin as ->. split.
              { apply elem_of_app; right. by left. }
              destruct Hr as [(_ & Hreg & e & Hlog)|(cc & _ & Hreg & _ & Hgo)].
              ** left. exists e. split; [|by rewrite Hreg].
                 apply elem_of_app; right. by right.
              ** right. exists (length (chans s)), cc.
                 split; [rewrite Hreg; apply lookup_insert_eq|].
                 apply elem_of_app; right. by right.
  - intros [] s (ks & Hperm & Hwfs & Hkeep & acts & Htr & Hq & P1 & P2 & P3).
    cbv beta in Hperm.
    split_and!; [done|done|]. exists acts. split_and!; [done|done|done| |].
    + intros k H0 Hm. apply P2; [done|]. rewrite (keys_perm_elem m ks k Hperm), Hm.
      by intros [? ?].
    + intros k Hm H0. apply P3; [|done]. by apply (keys_perm_elem m ks k Hperm).
Qed.

Lemma tick_remove_phase (m : gmap string Cluster) s1 :
  wf s1 →
  runs (range clusterControllers (λ clusterName ch,
          match m !! clusterName with
          | Some _ => mret tt
          | None => close ch;; map_delete clusterName
          end)) s1
    (λ _ s, wf s ∧ keeps s1 s ∧
       ∃ acts, trace s = trace s1 ++ acts ∧ (∀ a, a ∈ acts → ∃ c, a = AClose c) ∧
         (∀ k c, clusterControllers s1 !! k = Some c → is_Some (m !! k) →
                 clusterControllers s !! k = Some c) ∧
         (∀ k c, clusterControllers s1 !! k = Some c → m !! k = None →
                 clusterControllers s !! k = None ∧ AClose c ∈ acts ∧ closed s c) ∧
         (∀ k, clusterControllers s1 !! k = None → clusterControllers s !! k = None)).
Proof.
  intros Hwf. eapply runs_mono.
  - apply (runs_range _ _ s1 (λ pre s, wf s ∧ keeps s1 s ∧
       ∃ acts, trace s = trace s1 ++ acts ∧ (∀ a, a ∈ acts → ∃ c, a = AClose c) ∧
         (∀ k c, clusterControllers s1 !! k = Some c → is_Some (m !! k) ∨ k ∉ pre →
                 clusterControllers s !! k = Some c) ∧
         (∀ k c, clusterControllers s1 !! k = Some c → m !! k = None → k ∈ pre →
                 clusterControllers s !! k = None ∧ AClose c ∈ acts ∧ closed s c) ∧
         (∀ k, clusterControllers s1 !! k = None → clusterControllers s !! k = None))).
    intros w ks Hperm. split.
    + split_and!; [done|apply keeps_set_world|]. exists []. simpl. rewrite app_nil_r.
      split_and!; [done| |done| |done].
      * by intros a []%elem_of_nil.
      * by intros k c _ _ []%elem_of_nil.
    + intros pre k post s Hks (Hwfs & Hkeep & acts & Htr & Hcl & R1 & R2 & R3).
      assert (k ∉ pre) as Hnotin.
      { eapply NoDup_split_notin. rewrite <- Hks. by eapply keys_perm_NoDup. }
      assert (is_Some (clusterControllers s1 !! k)) as [c0 Hk1].
      { eapply (keys_perm_elem _ ks); [done|]. rewrite Hks.
        apply elem_of_app; right. by left. }
      assert (clusterControllers s !! k = Some c0) as Hk by (apply R1; auto).
      apply runs_get. rewrite Hk. destruct (m !! k) as [cl|] eqn:Hm.
      * apply runs_ret. split_and!; [done|done|]. exists acts.
        split_and!; [done|done| | |done].
        -- intros k' c' H1 [Hs|Hnin]; apply R1; auto.
           right. intros Hin. apply Hnin. apply elem_of_app; by left.
        -- intros k' c' H1 Hm' [Hin|Hin]%elem_of_app; [by apply R2|].
           apply list_elem_of_singleton in Hin as ->. congruence.
      * eapply runs_mono; [by apply close_delete_spec|].
        intros [] s' (Hwf' & Hkeep' & Hreg & Htr' & Hclosed).
        split_and!; [done|by eapply keeps_trans|]. exists (acts ++ [AClose c0]).
        split_and!.
        -- by rewrite Htr', Htr, <- app_assoc.
        -- intros a [Hin|Hin]%elem_of_app; [by apply Hcl|].
           apply list_elem_of_singleton in Hin as ->. by exists c0.
        -- intros k' c' H1 Hor. rewrite Hreg, lookup_delete_ne.
           ++ apply R1; [done|]. destruct Hor as [Hs|Hnin]; [by left|right].
              intros Hin. apply Hnin. apply elem_of_app; by left.
           ++ intros <-. destruct Hor as [[? Hs]|Hnin]; [congruence|].
              apply Hnin. apply elem_of_app; right. by left.
        -- intros k' c' H1 Hm' [Hin|Hin]%elem_of_app.
           ++ destruct (R2 k' c' H1 Hm' Hin) as (Hnone & Hin' & Hc').
              split_and!.
              ** rewrite Hreg. apply lookup_delete_None. by right.
              ** apply elem_of_app; by left.
              ** by apply (proj1 Hkeep').
           ++ apply list_elem_of_singleton in Hin as ->.
              assert (c' = c0) as -> by congruence. split_and!.
              ** rewrite Hreg. apply lookup_delete_eq.
              ** apply elem_of_app; right. by left.
              ** done.
        -- intros k' H1. rewrite Hreg. apply lookup_delete_None. right. by apply R3.
  - intros [] s (ks & Hperm & Hwfs & Hkeep & acts & Htr & Hcl & R1 & R2 & R3).
    split_and!; [done|done|]. exists acts. split_and!; [done|done| | |done].
    + intros k c H1 Hs. apply R1; auto.
    + intros k c H1 Hm. apply R2; [done|done|].
      apply (keys_perm_elem _ ks k Hperm). by exists c.
Qed.

Lemma tick_sweep_phase s2 :
  wf s2 →
  runs (range clusterControllers (λ clusterName ch, notify clusterName ch)) s2
    (λ _ s, wf s ∧ keeps s2 s ∧ clusterControllers s = clusterControllers s2 ∧
       ∃ acts, trace s = trace s2 ++ acts ∧ (∀ c, AClose c ∉ acts) ∧
         (∀ k c, clusterControllers s2 !! k = Some c → ∃ a, attempt c a ∧ a ∈ acts)).
Proof.
  intros Hwf. eapply runs_mono.
  - apply (runs_range _ _ s2 (λ pre s, wf s ∧ keeps s2 s ∧
       clusterControllers s = clusterControllers s2 ∧
       ∃ acts, trace s = trace s2 ++ acts ∧ (∀ c, AClose c ∉ acts) ∧
         (∀ k c, k ∈ pre → clusterControllers s2 !! k = Some c →
                 ∃ a, attempt c a ∧ a ∈ acts))).
    intros w ks Hperm. split.
    + split_and!; [done|apply keeps_set_world|done|]. exists []. simpl.
      rewrite app_nil_r. split_and!; [done| |].
      * by intros c []%elem_of_nil.
      * by intros k c []%elem_of_nil.
    + intros pre k post s Hks (Hwfs & Hkeep & Hreg & acts & Htr & Hnc & Hatt).
      assert (is_Some (clusterControllers s2 !! k)) as [c0 Hk2].
      { eapply (keys_perm_elem _ ks); [done|]. rewrite Hks.
        apply elem_of_app; right. by left. }
      apply runs_get. rewrite Hreg, Hk2.
      eapply runs_mono; [apply notify_spec; [done|by rewrite Hreg]|].
      intros [] s' (Hwf' & Hkeep' & Hreg' & acts' & Htr' & Hacts').
      split_and!; [done|by eapply keeps_trans|congruence|]. exists (acts ++ acts').
      split_and!.
      * by rewrite Htr', Htr, <- app_assoc.
      * intros c [Hin|Hin]%elem_of_app; [by apply Hnc in Hin|].
        revert Hin. destruct Hacts' as [->| ->]; solve_notin.
      * intros k' c' [Hin|Hin]%elem_of_app H2.
        -- destruct (Hatt k' c' Hin H2) as (a & Ha & Hin'). exists a. split; [done|].
           apply elem_of_app; by left.
        -- apply list_elem_of_singleton in Hin as ->.
           assert (c' = c0) as -> by congruence.
           destruct Hacts' as [->| ->].
           ++ exists (ASend c0). split; [by left|]. apply elem_of_app; right. by left.
           ++ exists (ADrop c0). split; [by right|]. apply elem_of_app; right. by left.
  - intros [] s (ks & Hperm & Hwfs & Hkeep & Hreg & acts & Htr & Hnc & Hatt).
    split_and!; [done|done|done|]. exists acts. split_and!; [done|done|].
    intros k c H2. apply (Hatt k c); [|done].
    apply (keys_perm_elem _ ks k Hperm). by exists c.
Qed.

(** A tick whose snapshot fetch fails. *)
Lemma on_tick_error m e s :
  on_tick m (Some e) s = Ok tt (add_trace [ALog LogTick; ALog (LogGetAllErr e)] s).
Proof.
  unfold on_tick. unfold_M. unfold add_trace; simpl. by rewrite <- app_assoc.
Qed.

(** A tick whose snapshot fetch succeeds: the three loops in a row. *)
Lemma on_tick_spec (m : gmap string Cluster) s :
  wf s →
  runs (on_tick m None) s (λ _ s',
    wf s' ∧ keeps s s' ∧
    ∃ acts1 acts2 acts3,
      trace s' = trace s ++ ALog LogTick :: acts1 ++ acts2 ++ acts3 ∧
      Forall quiet acts1 ∧
      (∀ a, a ∈ acts2 → ∃ c, a = AClose c) ∧
      (∀ c, AClose c ∉ acts3) ∧
      (∀ k c, clusterControllers s' !! k = Some c → is_Some (m !! k)) ∧
      (∀ k c, clusterControllers s !! k = Some c → m !! k = None →
              clusterControllers s' !! k = None ∧ AClose c ∈ acts2 ∧ closed s' c) ∧
      (∀ k c, clusterControllers s !! k = Some c → is_Some (m !! k) →
              clusterControllers s' !! k = Some c) ∧
      (∀ k, is_Some (m !! k) → clusterControllers s !! k = None → created s' acts1 k) ∧
      (∀ k c, clusterControllers s' !! k = Some c → ∃ a, attempt c a ∧ a ∈ acts3)).
Proof.
  intros Hwf. unfold on_tick. apply runs_bind.
  exists tt, (add_trace [ALog LogTick] s). split; [done|].
  assert (keeps s (add_trace [ALog LogTick] s)) as Hkeep0.
  { apply (keeps_quiet _ _ [ALog LogTick]); [done|done|done|solve_quiet|].
    intros c cap. solve_notin. }
  apply runs_bind. eapply runs_mono; [apply tick_create_phase; exact Hwf|].
  intros [] s1 (Hwf1 & Hkeep1 & acts1 & Htr1 & Hq1 & P1 & P2 & P3).
  apply runs_bind. eapply runs_mono; [by apply tick_remove_phase|].
  intros [] s2 (Hwf2 & Hkeep2 & acts2 & Htr2 & Hcl2 & Q1 & Q2 & Q3).
  eapply runs_mono; [by apply tick_sweep_phase|].
  intros [] s3 (Hwf3 & Hkeep3 & Hreg3 & acts3 & Htr3 & Hnc3 & Hatt3).
  simpl in *. split_and!; [done|eauto using keeps_trans|].
  exists acts1, acts2, acts3. rewrite Hreg3. split_and!; [|done|done|done| | | | |done].
  - rewrite Htr3, Htr2, Htr1, <- !app_assoc. done.
  - intros k c H2. destruct (m !! k) as [cl|] eqn:Hm; [by eexists|]. exfalso.
    destruct (clusterControllers s1 !! k) as [c1|] eqn:H1.
    + destruct (Q2 k c1 H1 Hm) as (Hnone & _). congruence.
    + apply Q3 in H1. congruence.
  - intros k c H0 Hm. destruct (Q2 k c (P1 k c H0) Hm) as (Hnone & Hin & Hc).
    split_and!; [done|done|]. by apply (proj1 Hkeep3).
  - intros k c H0 Hm. apply Q1; [|done]. by apply P1.
  - intros k Hm H0. destruct (P3 k Hm H0) as [Hcall Hres].
    unfold created. rewrite Hreg3. split; [done|].
    destruct Hres as [(e & Hlog & Hnone)|(c & cc & Hsome & Hgo)].
    + left. exists e. split; [done|]. by apply Q3.
    + right. exists c, cc. split; [|done]. by apply Q1.
Qed.

(** ** Shutdown *)

Lemma omap_lookup_keys {A} (m : gmap string A) ks :
  ks ≡ₚ (map_to_list m).*1 → omap (m !!.) ks ≡ₚ (map_to_list m).*2.
Proof.
  intros ->.
  assert (∀ l : list (string * A), (∀ k v, (k, v) ∈ l → m !! k = Some v) →
            omap (m !!.) l.*1 = l.*2) as Haux.
  { induction l as [|[k v] l IH]; intros Hl; [done|]. simpl.
    rewrite (Hl k v) by (by left). f_equal. apply IH.
    intros k' v' Hin. apply Hl. by right. }
  rewrite Haux; [done|]. intros k v Hin. by apply elem_of_map_to_list.
Qed.

Lemma on_done_spec s :
  wf s →
  runs on_done s (λ _ s',
    clusterControllers s' = clusterControllers s ∧ keeps s s' ∧
    (∀ k c, clusterControllers s !! k = Some c → closed s' c) ∧
    ∃ cs, trace s' = trace s ++ ALog LogStopping :: (AClose <$> cs) ∧
          cs ≡ₚ (map_to_list (clusterControllers s)).*2).
Proof.
  intros [Hopen Hinj]. unfold on_done. apply runs_bind.
  exists tt, (add_trace [ALog LogStopping] s). split; [done|].
  assert (keeps s (add_trace [ALog LogStopping] s)) as Hkeep0.
  { apply (keeps_quiet _ _ [ALog LogStopping]); [done|done|done|solve_quiet|].
    intros c cap. solve_notin. }
  eapply runs_mono.
  - apply (runs_range _ _ _ (λ pre s',
      clusterControllers s' = clusterControllers s ∧ keeps s s' ∧
      trace s' = trace s ++ ALog LogStopping
                   :: (AClose <$> omap (clusterControllers s !!.) pre) ∧
      (∀ k c, clusterControllers s !! k = Some c → k ∈ pre → closed s' c) ∧
      (∀ k c, clusterControllers s !! k = Some c → k ∉ pre →
              ∃ ch, chans s' !! c = Some ch ∧ chan_closed ch = false))).
    intros w ks Hperm. simpl in Hperm. split.
    + split_and!; [done|done|done| |].
      * by intros k c _ []%elem_of_nil.
      * intros k c Hk _. by apply (Hopen k c).
    + intros pre k post s' Hks (Hreg & Hkeep & Htr & Hdone & Htodo).
      assert (k ∉ pre) as Hnotin.
      { eapply NoDup_split_notin. rewrite <- Hks. by eapply keys_perm_NoDup. }
      assert (is_Some (clusterControllers s !! k)) as [c0 Hk].
      { eapply (keys_perm_elem _ ks); [done|]. rewrite Hks.
        apply elem_of_app; right. by left. }
      apply runs_get. rewrite Hreg, Hk.
      destruct (Htodo k c0 Hk Hnotin) as (ch & Hch & Hcl).
      unfold runs. rewrite (close_spec c0 ch s' Hch Hcl).
      eexists tt, _. split; [done|].
      pose proof (keeps_close c0 ch s' Hch Hcl) as Hkeep'.
      split_and!; [done|by eapply keeps_trans| | |].
      * simpl. rewrite Htr, omap_app, fmap_app. simpl. rewrite Hk. simpl.
        by rewrite <- app_assoc.
      * intros k' c' Hk' [Hin|Hin]%elem_of_app.
        -- apply (proj1 Hkeep'). by apply (Hdone k' c').
        -- apply list_elem_of_singleton in Hin as ->.
           assert (c' = c0) as -> by congruence. by apply closed_after_close.
      * intros k' c' Hk' Hnin.
        assert (k' ∉ pre) as Hnin1 by (intros ?; apply Hnin, elem_of_app; by left).
        assert (k' ≠ k) as Hne by (intros ->; apply Hnin, elem_of_app; right; by left).
        destruct (Htodo k' c' Hk' Hnin1) as (ch' & Hch' & Hcl').
        exists ch'. split; [|done]. simpl. rewrite list_lookup_insert_ne; [done|].
        intros ->. by apply Hne, (Hinj k' k c').
  - intros [] s' (ks & Hperm & Hreg & Hkeep & Htr & Hdone & _). simpl in Hperm.
    split_and!; [done|done| |].
    + intros k c Hk. apply (Hdone k c Hk). apply (keys_perm_elem _ ks k Hperm). by exists c.
    + eexists. split; [done|]. by apply omap_lookup_keys.
Qed.

(** ** Workers *)

Lemma worker_recv_spec c s :
  wf s →
  runs (worker_recv c) s (λ _ s',
    wf s' ∧ keeps s s' ∧ trace s' = trace s ∧
    clusterControllers s' = clusterControllers s).
Proof.
  intros Hwf. unfold runs, worker_recv.
  destruct (chans s !! c) as [ch|] eqn:Hch; [|by eexists tt, _; eauto using keeps_refl].
  eexists tt, _. split; [done|].
  assert (∀ c', closed s c' →
     closed (set_chans (<[c:=Chan (chan_cap ch) (pred (chan_len ch)) (chan_closed ch)]>
                          (chans s)) s) c') as Hmono.
  { intros c' (ch' & Hch' & Hcl'). destruct (decide (c' = c)) as [->|Hne].
    - eexists (Chan _ _ _). split; [simpl; rewrite list_lookup_insert_eq; [done|]|].
      + by eapply lookup_lt_Some.
      + simpl. congruence.
    - exists ch'. split; [|done]. simpl. by rewrite list_lookup_insert_ne. }
  split_and!; [| |done|done].
  - destruct Hwf as [Hopen Hinj]. split; [|done]. simpl. intros k' c' Hk'.
    destruct (Hopen k' c' Hk') as (ch' & Hch' & Hcl').
    destruct (decide (c' = c)) as [->|Hne].
    + eexists (Chan _ _ _). split; [rewrite list_lookup_insert_eq; [done|]|].
      * by eapply lookup_lt_Some.
      * simpl. congruence.
    + exists ch'. by rewrite list_lookup_insert_ne.
  - unfold keeps. split_and!; [done| | |done].
    + intros [Hcl Hns]. split; [|done]. intros c' Hin. by apply Hmono, Hcl.
    + intros Hcaps. apply caps_insert; [done|done|].
      destruct (proj1 Hcaps _ _ Hch). lia.
Qed.

(** ** The loop *)

Lemma step_spec e s :
  wf s →
  runs (step e) s (λ r s',
    keeps s s' ∧ (e ≠ EvDone → r = Continue ∧ wf s') ∧ (e = EvDone → r = Return)).
Proof.
  intros Hwf. destruct e as [k v|m [e|]|]; simpl; apply runs_bind.
  - eapply runs_mono; [by apply on_watch_spec|].
    intros [] s' [Hwf' Hkeep]. by apply runs_ret.
  - unfold runs. rewrite on_tick_error. eexists tt, _. split; [done|].
    apply runs_ret. split_and!; [|done|done].
    apply (keeps_quiet _ _ [ALog LogTick; ALog (LogGetAllErr e)]);
      [done|done|done|solve_quiet|].
    intros c cap. solve_notin.
  - eapply runs_mono; [by apply on_tick_spec|].
    intros [] s' (Hwf' & Hkeep & _). by apply runs_ret.
  - eapply runs_mono; [by apply on_done_spec|].
    intros [] s' (_ & Hkeep & _). by apply runs_ret.
Qed.

Lemma loop_select e ins s :
  loop (Select e :: ins) s =
  match step e s with
  | Ok Continue s' => loop ins s'
  | Ok Return s' => Ok Return s'
  | Panic msg s' => Panic msg s'
  end.
Proof.
  change (loop (Select e :: ins)) with
    (step e ≫= λ r, match r with Return => mret Return | Continue => loop ins end).
  unfold mbind, M_bind. by destruct (step e s) as [[]|].
Qed.

Lemma loop_spec ins s :
  wf s → runs (loop ins) s (λ r s', keeps s s' ∧ (r = Continue → wf s')).
Proof.
  revert s. induction ins as [|[e|c] ins IH]; intros s Hwf; simpl.
  - apply runs_ret. split; [apply keeps_refl|done].
  - apply runs_bind. eapply runs_mono; [by apply step_spec|].
    intros r s' (Hkeep & Hcont & Hret). destruct r.
    + destruct e; try (destruct Hret; done).
      * eapply runs_mono; [apply IH; by apply Hcont|].
        intros r' s'' [Hkeep' Hwf']. split; [by eapply keeps_trans|done].
      * eapply runs_mono; [apply IH; by apply Hcont|].
        intros r' s'' [Hkeep' Hwf']. split; [by eapply keeps_trans|done].
      * by specialize (Hret eq_refl).
    + apply runs_ret. split; done.
  - apply runs_bind. eapply runs_mono; [by apply worker_recv_spec|].
    intros [] s' (Hwf' & Hkeep & _).
    eapply runs_mono; [by apply IH|].
    intros r' s'' [Hkeep' Hwf'']. split; [by eapply keeps_trans|done].
Qed.

Lemma Run_spec ins s :
  wf s → runs (Run ins) s (λ r s', keeps s s' ∧ (r = Continue → wf s')).
Proof.
  intros Hwf. unfold Run. apply runs_bind.
  exists tt, (add_trace [ALog LogStarted] s). split; [done|].
  eapply runs_mono; [by apply loop_spec|].
  intros r s' [Hkeep Hwf']. split; [|done]. eapply keeps_trans; [|done].
  apply (keeps_quiet _ _ [ALog LogStarted]); [done|done|done|solve_quiet|].
  intros c cap. solve_notin.
Qed.

Lemma tr_ok_nil s : trace s = [] → tr_ok s.
Proof.
  intros Htr. unfold tr_ok. rewrite Htr. split.
  - by intros c []%elem_of_nil.
  - intros t1 t2 c a Heq. by destruct t1.
Qed.

Lemma wf_init dir w : wf (init dir w).
Proof. split; simpl; intros ?; by setoid_rewrite lookup_empty. Qed.

Lemma caps_ok_init dir w : caps_ok (init dir w).
Proof. split; simpl; [by intros [|?] ?|by intros c cap []%elem_of_nil]. Qed.

(** * The claims *)

(** C2: a tick on which [GetAll] returns an error logs the tick and the
    error and does nothing else: the loop goes on, the map of workers, the
    heap of channels (so every channel, none made, none closed, nothing sent)
    and the world are as before, and the two log lines are the only
    actions. *)
Theorem tick_fetch_error_skips_tick (definedClusters : gmap string Cluster) e s :
  ∃ s', step (EvTick definedClusters (Some e)) s = Ok Continue s' ∧
        clusterControllers s' = clusterControllers s ∧
        chans s' = chans s ∧
        world s' = world s ∧
        trace s' = trace s ++ [ALog LogTick; ALog (LogGetAllErr e)].
Proof.
  eexists. split.
  - simpl. unfold mbind, M_bind. rewrite on_tick_error. reflexivity.
  - done.
Qed.

(** C5: a watch event for a tracked cluster whose value is not nil, the
    cluster's channel being open.  The loop goes on; the map of workers and
    the world are unchanged (no factory call touched the world); no channel
    is made; every other channel is untouched and the cluster's channel keeps
    its capacity and stays open; and the actions of the step are one send
    attempt on that channel: the send itself, or the default case with its
    log line. *)
Theorem watch_update_notifies_only k v c ch s :
  clusterControllers s !! k = Some c →
  chans s !! c = Some ch →
  chan_closed ch = false →
  ∃ s', step (EvWatch k (Some v)) s = Ok Continue s' ∧
        clusterControllers s' = clusterControllers s ∧
        world s' = world s ∧
        length (chans s') = length (chans s) ∧
        (∀ c', c' ≠ c → chans s' !! c' = chans s !! c') ∧
        (∃ ch', chans s' !! c = Some ch' ∧ chan_cap ch' = chan_cap ch ∧
                chan_closed ch' = false) ∧
        (trace s' = trace s ++ [ASend c] ∧ chan_len ch < chan_cap ch ∨
         trace s' = trace s ++ [ADrop c; ALog (LogBufferFull k)] ∧
         chans s' = chans s ∧ chan_cap ch ≤ chan_len ch).
Proof.
  intros Hk Hch Hopen. simpl. unfold mbind at 1, M_bind at 1.
  rewrite (on_watch_update k v c s Hk). unfold notify. rewrite Hch, Hopen.
  case_bool_decide as Hlen.
  - eexists. split; [done|]. simpl. split_and!; [done|done| | | |left; done].
    + apply length_insert.
    + intros c' Hne. by rewrite list_lookup_insert_ne.
    + exists (Chan (chan_cap ch) (S (chan_len ch)) false). split; [|done].
      rewrite list_lookup_insert_eq; [done|]. by eapply lookup_lt_Some.
  - eexists. split; [done|]. simpl. split_and!; [done|done|done|done| |].
    + by exists ch.
    + right. split_and!; [done|done|lia].
Qed.

(** C6: a watch event with the nil value for a tracked cluster, the cluster's
    channel being open.  The channel is closed, the entry is deleted and no
    other entry is touched, no other channel is touched, and the close is the
    only action of the step: nothing is sent. *)
Theorem watch_delete_terminates_worker k c ch s :
  clusterControllers s !! k = Some c →
  chans s !! c = Some ch →
  chan_closed ch = false →
  ∃ s', step (EvWatch k None) s = Ok Continue s' ∧
        clusterControllers s' = delete k (clusterControllers s) ∧
        chans s' = <[c:=Chan (chan_cap ch) (chan_len ch) true]> (chans s) ∧
        closed s' c ∧
        world s' = world s ∧
        trace s' = trace s ++ [AClose c].
Proof.
  intros Hk Hch Hopen. simpl. unfold on_watch. unfold_M. rewrite Hk.
  rewrite (close_spec c ch s Hch Hopen). eexists. split; [done|].
  split_and!; try done. by apply (closed_after_close s c ch).
Qed.

(** C10: a watch event with the nil value for a cluster that is not tracked.
    The nil slice is handed to [json.Unmarshal]; provided the decoder rejects
    the empty input (as Go's does), its error is logged and that log line is
    all that happens: the state is otherwise the same. *)
Theorem watch_delete_untracked_is_decode_error k cluster e s :
  json_Unmarshal [] = (cluster, Some e) →
  clusterControllers s !! k = None →
  step (EvWatch k None) s = Ok Continue (add_trace [ALog (LogUnmarshalErr k e)] s).
Proof.
  intros Hjson Hk. simpl. unfold on_watch. unfold_M. rewrite Hk. simpl.
  by rewrite Hjson.
Qed.

(** C1: a tick whose snapshot fetch succeeded, from a well-formed state.
    The tick completes and the loop goes on; afterwards every key of the map
    of workers is a key of the snapshot; and every key that was in the map
    and is not in the snapshot has been removed, its channel closed by a
    close that is one of the actions of this tick. *)
Theorem tick_registry_within_snapshot (definedClusters : gmap string Cluster) s :
  wf s →
  ∃ s' acts,
    step (EvTick definedClusters None) s = Ok Continue s' ∧
    trace s' = trace s ++ acts ∧
    dom (clusterControllers s') ⊆ dom definedClusters ∧
    (∀ k c, clusterControllers s !! k = Some c → definedClusters !! k = None →
            clusterControllers s' !! k = None ∧ closed s' c ∧ AClose c ∈ acts).
Proof.
  intros Hwf.
  destruct (on_tick_spec definedClusters s Hwf)
    as ([] & s' & Hrun & _ & _ & acts1 & acts2 & acts3 & Htr & _ & _ & _ & T1 & T2 & _).
  exists s', (ALog LogTick :: acts1 ++ acts2 ++ acts3). split_and!.
  - simpl. unfold mbind, M_bind. by rewrite Hrun.
  - done.
  - intros k [c Hc]%elem_of_dom. apply elem_of_dom. by apply (T1 k c).
  - intros k c Hk Hm. destruct (T2 k c Hk Hm) as (Hnone & Hin & Hcl).
    split_and!; [done|done|]. right. apply elem_of_app; right.
    apply elem_of_app; by left.
Qed.


(** C3: in every run of [Run] from a well-formed controller, over any
    sequence of watch events, ticks, shutdown and receives by the workers,
    the loop does not panic and no send is attempted on a channel after the
    close of that channel.  In particular, in one tick every close comes
    before every send attempt, and the step for a watch deletion is the close
    alone. *)
Theorem no_send_after_close_in_any_run ins s0 :
  wf s0 → trace s0 = [] →
  (∃ r s', Run ins s0 = Ok r s' ∧ no_send_after_close (trace s')) ∧
  (∀ (m : gmap string Cluster) s, wf s →
     ∃ s' before sweep,
       step (EvTick m None) s = Ok Continue s' ∧
       trace s' = trace s ++ before ++ sweep ∧
       (∀ a c, a ∈ before → ¬ attempt c a) ∧
       (∀ c, AClose c ∉ sweep)) ∧
  (∀ k c s, wf s → clusterControllers s !! k = Some c →
     ∃ s', step (EvWatch k None) s = Ok Continue s' ∧
           trace s' = trace s ++ [AClose c]).
Proof.
  intros Hwf Htr0. split_and!.
  - destruct (Run_spec ins s0 Hwf) as (r & s' & Hrun & (_ & Htr & _) & _).
    exists r, s'. split; [done|]. by apply Htr, tr_ok_nil.
  - intros m s Hwfs.
    destruct (on_tick_spec m s Hwfs)
      as ([] & s' & Hrun & _ & _ & acts1 & acts2 & acts3 & Htr & Hq & Hcl & Hnc & _).
    exists s', (ALog LogTick :: acts1 ++ acts2), acts3. split_and!.
    + simpl. unfold mbind, M_bind. by rewrite Hrun.
    + rewrite Htr. simpl. by rewrite <- app_assoc.
    + intros a c [->|[Hin|Hin]%elem_of_app]%elem_of_cons.
      * by intros [?|?].
      * by eapply quiet_not_attempt.
      * destruct (Hcl a Hin) as [c' ->]. by intros [?|?].
    + done.
  - intros k c s Hwfs Hk.
    destruct (on_watch_delete k c s Hwfs Hk) as ([] & s' & Hrun & _ & _ & _ & Htr & _).
    exists s'. split; [|done]. simpl. unfold mbind, M_bind. by rewrite Hrun.
Qed.

(** C4, as the code has it: on the shutdown signal, from a well-formed
    state, the loop logs, closes the channel of every entry of the map of
    workers, once per entry, and returns; whatever inputs follow are not
    processed.  The map itself is left as it was: no entry is deleted. *)
Theorem shutdown_closes_every_channel_and_returns s rest :
  wf s →
  ∃ s' cs,
    step EvDone s = Ok Return s' ∧
    loop (Select EvDone :: rest) s = Ok Return s' ∧
    clusterControllers s' = clusterControllers s ∧
    cs ≡ₚ (map_to_list (clusterControllers s)).*2 ∧
    trace s' = trace s ++ ALog LogStopping :: (AClose <$> cs) ∧
    (∀ k c, clusterControllers s !! k = Some c → closed s' c).
Proof.
  intros Hwf.
  destruct (on_done_spec s Hwf) as ([] & s' & Hrun & Hreg & _ & Hcl & cs & Htr & Hperm).
  exists s', cs.
  assert (step EvDone s = Ok Return s') as Hstep.
  { simpl. unfold mbind, M_bind. by rewrite Hrun. }
  split_and!; try done.
  by rewrite loop_select, Hstep.
Qed.

(** C8: [newClusterController] never panics and touches neither the map of
    workers nor the channels.  It calls [os.MkdirAll] on the cluster's
    directory ([ForCluster] of the configured root and the cluster name) with
    mode 0700, which has the owner's three bits and no other; then
    [os.Create] on "kismatic.log" joined to that directory; then the
    executor constructor with the cluster name, that directory and the file.
    The first call that returns an error ends the function: no later call is
    made (the trace stops there), and the result is the nil worker with one
    error, the step's message followed by the cause.  When none fails the
    result is the worker, with no error. *)
Theorem newClusterController_in_order clusterName cluster s :
  let dir := ForCluster (assetsDir s) clusterName in
  let logPath := filepath_Join dir "kismatic.log" in
  let mk := os_MkdirAll dir mode_0700 (world s) in
  let cr := os_Create logPath mk.1 in
  let ex := newExecutor clusterName dir cr.2.1 cr.1 in
  N.land mode_0700 (7 * 8 * 8) = mode_0700 ∧ N.land mode_0700 (7 * 8 + 7) = 0%N ∧
  ∃ r s',
    newClusterController clusterName cluster s = Ok r s' ∧
    clusterControllers s' = clusterControllers s ∧
    chans s' = chans s ∧
    match mk.2, cr.2.2, ex.2.2 with
    | Some e, _, _ =>
        r = (None, Some ("error creating assets directory: " +:+ e)) ∧
        world s' = mk.1 ∧
        trace s' = trace s ++ [ACall clusterName; AMkdirAll dir mode_0700]
    | None, Some e, _ =>
        r = (None, Some ("error creating log file: " +:+ e)) ∧
        world s' = cr.1 ∧
        trace s' = trace s ++ [ACall clusterName; AMkdirAll dir mode_0700; ACreate logPath]
    | None, None, Some e =>
        r = (None, Some ("error creating executor: " +:+ e)) ∧
        world s' = ex.1 ∧
        trace s' = trace s ++ [ACall clusterName; AMkdirAll dir mode_0700; ACreate logPath;
                               ANewExecutor clusterName dir cr.2.1]
    | None, None, None =>
        r = (Some {| cc_clusterName := clusterName;
                     cc_clusterSpec := Cluster_Spec cluster;
                     cc_clusterAssetsDir := dir;
                     cc_logFile := cr.2.1;
                     cc_executor := ex.2.1 |}, None) ∧
        world s' = ex.1 ∧
        trace s' = trace s ++ [ACall clusterName; AMkdirAll dir mode_0700; ACreate logPath;
                               ANewExecutor clusterName dir cr.2.1]
    end.
Proof.
  cbv zeta. split; [done|]. split; [done|].
  unfold newClusterController. unfold_M. simpl.
  destruct (os_MkdirAll _ _ _) as [w1 [e1|]]; simpl.
  { eexists _, _. split; [done|]. simpl. rewrite <- !app_assoc. split_and!; done. }
  destruct (os_Create _ _) as [w2 [logFile [e2|]]]; simpl.
  { eexists _, _. split; [done|]. simpl. rewrite <- !app_assoc. split_and!; done. }
  destruct (newExecutor _ _ _ _) as [w3 [executor [e3|]]]; simpl.
  { eexists _, _. split; [done|]. simpl. rewrite <- !app_assoc. split_and!; done. }
  eexists _, _. split; [done|]. simpl. rewrite <- !app_assoc. split_and!; done.
Qed.

(** C9: the buffer size is 10.  In every run of [Run] from a controller with
    no worker the loop does not panic, every [make] asks for capacity 10,
    every channel has capacity 10 and never holds more than 10, and a send
    on an open channel that holds 10 takes the default case: the
    notification is dropped, the drop is logged, and nothing else changes
    (the channels, the map of workers and the world are the same).  As the
    run may be extended by any inputs, what follows is processed as usual. *)
Theorem notification_buffer_is_ten_and_full_sends_drop ins dir w :
  clusterControllerNotificationBuffer = 10 ∧
  ∃ r s',
    Run ins (init dir w) = Ok r s' ∧
    (∀ c cap, AMake c cap ∈ trace s' → cap = 10) ∧
    (∀ c ch, chans s' !! c = Some ch → chan_cap ch = 10 ∧ chan_len ch ≤ 10) ∧
    (∀ k c ch, chans s' !! c = Some ch → chan_closed ch = false → chan_len ch = 10 →
               notify k c s' = Ok tt (add_trace [ADrop c; ALog (LogBufferFull k)] s')).
Proof.
  split; [done|].
  destruct (Run_spec ins (init dir w) (wf_init dir w))
    as (r & s' & Hrun & (_ & _ & Hcaps & _) & _).
  destruct (Hcaps (caps_ok_init dir w)) as [Hcap Hmk].
  exists r, s'. split_and!; [done|done| |].
  - intros c ch Hch. destruct (Hcap c ch Hch) as [Hc Hl]. rewrite Hc in Hl. done.
  - intros k c ch Hch Hopen Hlen. unfold notify. rewrite Hch, Hopen.
    destruct (Hcap c ch Hch) as [Hc _]. rewrite Hc, Hlen.
    by rewrite bool_decide_eq_false_2 by (unfold clusterControllerNotificationBuffer; lia).
Qed.


End Proofs.

(** * The claims on the concrete environment *)

Lemma wf_demo_one : wf demo_one.
Proof.
  split; simpl.
  - intros k c [<- <-]%lookup_singleton_Some. by exists (Chan 10 0 false).
  - by intros k1 k2 c [<- <-]%lookup_singleton_Some [<- _]%lookup_singleton_Some.
Qed.

Lemma wf_demo_two : wf demo_two.
Proof.
  split; simpl.
  - intros k c [[<- <-]|[_ [<- <-]%lookup_singleton_Some]]%lookup_insert_Some.
    + by exists (Chan 10 0 false).
    + by exists (Chan 10 3 false).
  - intros k1 k2 c [[<- <-]|[_ [<- <-]%lookup_singleton_Some]]%lookup_insert_Some
                   [[<- ?]|[_ [<- ?]%lookup_singleton_Some]]%lookup_insert_Some; done.
Qed.

(** C1 on a controller with workers for "a" and "b" and a snapshot without
    "b". *)
Lemma tick_registry_within_snapshot_witness :
  ∃ s' acts,
    step (EvTick demo_snapshot None) demo_two = Ok Continue s' ∧
    trace s' = trace demo_two ++ acts ∧
    dom (clusterControllers s') ⊆ dom demo_snapshot ∧
    (∀ k c, clusterControllers demo_two !! k = Some c → demo_snapshot !! k = None →
            clusterControllers s' !! k = None ∧ closed s' c ∧ AClose c ∈ acts).
Proof. exact (tick_registry_within_snapshot demo_snapshot demo_two wf_demo_two). Defined.


(** What that tick does, action by action: a worker is made for "c", the
    factory fails for "bad" and is logged, the stale "b" is closed, and "c"
    and "a" are notified. *)
Example tick_on_demo_two :
  ∃ s', step (EvTick demo_snapshot None) demo_two = Ok Continue s' ∧
        map_to_list (clusterControllers s') = [("c", 2); ("a", 0)] ∧
        chans s' = [Chan 10 1 false; Chan 10 3 true; Chan 10 1 false] ∧
        trace s' =
          [ALog LogTick;
           ACall "c"; AMkdirAll "/assets/c" 448; ACreate "/assets/c/kismatic.log";
           @ANewExecutor demo_env "c" "/assets/c" "/assets/c/kismatic.log"; AMake 2 10;
           AGo (Some (@Build_clusterController demo_env "c" demo_spec "/assets/c"
                        "/assets/c/kismatic.log" "c")) 2;
           ACall "bad"; AMkdirAll "/assets/bad" 448;
           ALog (LogCreateErr "bad"
                   "error creating assets directory: mkdir /assets/bad: permission denied");
           AClose 1; ASend 2; ASend 0].
Proof. eexists. split; [vm_compute; reflexivity|]. by vm_compute. Qed.

(** C3 on a run that creates, updates, deletes and sweeps. *)
Lemma no_send_after_close_in_any_run_witness :
  let ins := [Select (EvWatch "b" (Some demo_spec)); Select (EvWatch "a" None);
              Recv 1; Select (EvTick demo_snapshot None); Select EvDone] in
  (∃ r s', Run ins demo_one = Ok r s' ∧ no_send_after_close (trace s')) ∧
  (∀ (m : gmap string (@Cluster demo_env)) (s : @State demo_env), wf s →
     ∃ s' before sweep,
       step (EvTick m None) s = Ok Continue s' ∧
       trace s' = trace s ++ before ++ sweep ∧
       (∀ a c, a ∈ before → ¬ attempt c a) ∧
       (∀ c, AClose c ∉ sweep)) ∧
  (∀ (k : string) (c : nat) (s : @State demo_env),
     wf s → clusterControllers s !! k = Some c →
     ∃ s', step (EvWatch k None) s = Ok Continue s' ∧
           trace s' = trace s ++ [AClose c]).
Proof.
  exact (no_send_after_close_in_any_run _ demo_one wf_demo_one eq_refl).
Defined.

(** C4, as claimed, fails: after the shutdown step the map of workers still
    holds both entries. *)
Lemma shutdown_leaves_the_registry_entries :
  ∃ s', step EvDone demo_two = Ok Return s' ∧
        clusterControllers s' !! "a" = Some 0 ∧
        clusterControllers s' !! "b" = Some 1 ∧
        clusterControllers s' ≠ ∅.
Proof.
  eexists. split; [vm_compute; reflexivity|]. split_and!; [done|done|].
  intros Hempty. apply (f_equal (λ m : gmap string nat, m !! "a")) in Hempty.
  by vm_compute in Hempty.
Qed.

(** C4 as amended, on the controller with two workers. *)
Lemma shutdown_closes_every_channel_and_returns_witness :
  ∃ s' cs,
    step EvDone demo_two = Ok Return s' ∧
    loop [Select EvDone; Select (EvWatch "a" (Some demo_spec));
          Select (EvTick demo_snapshot None)] demo_two = Ok Return s' ∧
    clusterControllers s' = clusterControllers demo_two ∧
    cs ≡ₚ (map_to_list (clusterControllers demo_two)).*2 ∧
    trace s' = trace demo_two ++ ALog LogStopping :: (AClose <$> cs) ∧
    (∀ k c, clusterControllers demo_two !! k = Some c → closed s' c).
Proof.
  exact (shutdown_closes_every_channel_and_returns demo_two _ wf_demo_two).
Defined.

(** C5 on an update of "a". *)
Lemma watch_update_notifies_only_witness :
  ∃ s', step (EvWatch "a" (Some demo_spec)) demo_one = Ok Continue s' ∧
        clusterControllers s' = clusterControllers demo_one ∧
        world s' = world demo_one ∧
        length (chans s') = length (chans demo_one) ∧
        (∀ c', c' ≠ 0 → chans s' !! c' = chans demo_one !! c') ∧
        (∃ ch', chans s' !! 0 = Some ch' ∧ chan_cap ch' = 10 ∧ chan_closed ch' = false) ∧
        (trace s' = trace demo_one ++ [ASend 0] ∧ 0 < 10 ∨
         trace s' = trace demo_one ++ [ADrop 0; ALog (LogBufferFull "a")] ∧
         chans s' = chans demo_one ∧ 10 ≤ 0).
Proof.
  exact (watch_update_notifies_only "a" demo_spec 0 (Chan 10 0 false) demo_one
           eq_refl eq_refl eq_refl).
Defined.

(** C6 on the deletion of "a". *)
Lemma watch_delete_terminates_worker_witness :
  ∃ s', step (EvWatch "a" None) demo_one = Ok Continue s' ∧
        clusterControllers s' = delete "a" (clusterControllers demo_one) ∧
        chans s' = <[0:=Chan 10 0 true]> (chans demo_one) ∧
        closed s' 0 ∧
        world s' = world demo_one ∧
        trace s' = trace demo_one ++ [AClose 0].
Proof.
  exact (watch_delete_terminates_worker "a" 0 (Chan 10 0 false) demo_one
           eq_refl eq_refl eq_refl).
Defined.

(** C10 on the deletion of "b", which has no worker. *)
Lemma watch_delete_untracked_is_decode_error_witness :
  step (EvWatch "b" None) demo_one =
  Ok Continue (add_trace [ALog (LogUnmarshalErr "b" "unexpected end of JSON input")] demo_one).
Proof.
  exact (@watch_delete_untracked_is_decode_error demo_env "b" [] "unexpected end of JSON input"
           demo_one eq_refl eq_refl).
Defined.

(** Scenario 5: eleven watch events for "a" and no receive.  The first makes
    the worker and sends, the next nine send, the eleventh is dropped. *)
Example eleventh_notification_is_dropped :
  ∃ s', Run (replicate 11 (Select (EvWatch "a" (Some demo_spec)))) demo_init
          = Ok Continue s' ∧
        chans s' = [Chan 10 10 false] ∧
        drop 7 (trace s') = replicate 10 (ASend 0) ++ [ADrop 0; ALog (LogBufferFull "a")].
Proof. eexists. split; [vm_compute; reflexivity|]. by vm_compute. Qed.

(** * More on the loop: what each step does, action by action *)

Section Exact.
Context {E : Env}.

Implicit Types (s : State) (c : chanref) (k clusterName : string) (a : action).

(** ** Partial correctness *)

Lemma post_ret {A} (x : A) s (Q : A → State → Prop) : Q x s → post (mret x) s Q.
Proof. intros HQ a s' [= <- <-]. done. Qed.

Lemma post_bind {A B} (m : M A) (f : A → M B) s (Q : B → State → Prop) :
  post m s (λ x s', post (f x) s' Q) → post (m ≫= f) s Q.
Proof.
  intros Hm b s'' Hrun. unfold mbind, M_bind in Hrun.
  destruct (m s) as [x s'|] eqn:Hms; [|done]. by apply (Hm x s' Hms).
Qed.

Lemma post_mono {A} (m : M A) s (Q Q' : A → State → Prop) :
  post m s Q → (∀ x s', Q x s' → Q' x s') → post m s Q'.
Proof. intros Hm HQ a s' Hrun. by apply HQ, Hm. Qed.

Lemma post_get {B} (f : State → M B) s (Q : B → State → Prop) :
  post (f s) s Q → post (get ≫= f) s Q.
Proof. intros Hf. apply post_bind. by intros x s' [= <- <-]. Qed.

Lemma runs_post {A} (m : M A) s (Q Q' : A → State → Prop) :
  runs m s Q → post m s Q' → runs m s (λ x s', Q x s' ∧ Q' x s').
Proof. intros (x & s' & Hrun & HQ) Hpost. exists x, s'. auto. Qed.

Lemma post_for_each (I : list string → State → Prop) ks body s :
  I [] s →
  (∀ pre k rest s', ks = pre ++ k :: rest → I pre s' →
                    post (body k) s' (λ _ s'', I (pre ++ [k]) s'')) →
  post (for_each ks body) s (λ _ s', I ks s').
Proof.
  revert I s. induction ks as [|k ks IH]; intros I s H0 Hbody; simpl.
  - by apply post_ret.
  - apply post_bind. eapply post_mono; [apply (Hbody [] k ks s); done|].
    intros [] s' HI; simpl in HI.
    apply (IH (λ pre, I (k :: pre))); [done|].
    intros pre k' post' s'' Heq HI'.
    apply (Hbody (k :: pre) k' post'); [by rewrite Heq|done].
Qed.

Lemma post_range {A} (m : State → gmap string A) body s (I : list string → State → Prop) :
  (∀ w ks, ks ≡ₚ (map_to_list (m s)).*1 →
     I [] (set_world w s) ∧
     (∀ pre k rest s', ks = pre ++ k :: rest → I pre s' →
        post (s'' ← get; match m s'' !! k with Some v => body k v | None => mret tt end) s'
             (λ _ s'', I (pre ++ [k]) s''))) →
  post (range m body) s (λ _ s', ∃ ks, ks ≡ₚ (map_to_list (m s)).*1 ∧ I ks s').
Proof.
  intros HI. unfold range, post; cbv beta.
  pose proof (range_order_perm (map_to_list (m s)).*1 (world s)) as Hperm.
  destruct (range_order _ _) as [w ks]; simpl in Hperm.
  destruct (HI w ks Hperm) as [H0 Hbody].
  intros [] s' Hrun. exists ks. split; [done|].
  by apply (post_for_each I ks _ (set_world w s) H0 Hbody tt s').
Qed.

(** ** The primitive statements, exactly *)

Lemma fs_action_silent (fs : list action) :
  Forall fs_action fs →
  calls fs = [] ∧ closes fs = [] ∧ attempts fs = [] ∧ started fs = [].
Proof.
  induction 1 as [|a fs Ha _ (IH1 & IH2 & IH3 & IH4)]; [done|].
  destruct a; try done; proj; by rewrite ?IH1, ?IH2, ?IH3, ?IH4.
Qed.

Lemma started_elem (t : list action) cc c : AGo cc c ∈ t → c ∈ started t.
Proof. intros Hin. apply list_elem_of_omap. by exists (AGo cc c). Qed.

Lemma closes_elem (t : list action) c : c ∈ closes t ↔ AClose c ∈ t.
Proof.
  unfold closes. rewrite list_elem_of_omap. split.
  - intros (a & Hin & Ha). by destruct a; simplify_eq.
  - intros Hin. by exists (AClose c).
Qed.

(** [create] never panics.  It calls the factory; on an error it logs it and
    changes nothing else but the world; otherwise it makes a channel of the
    buffer size, registers it under the name and starts the worker the
    factory returned, built for that name. *)
Lemma create_exact k cl s :
  runs (create k cl) s (λ r s',
    assetsDir s' = assetsDir s ∧
    ∃ fs, Forall fs_action fs ∧
      ((∃ e, r = None ∧ clusterControllers s' = clusterControllers s ∧
             chans s' = chans s ∧
             trace s' = trace s ++ ACall k :: fs ++ [ALog (LogCreateErr k e)]) ∨
       (∃ w, r = Some (length (chans s)) ∧
             clusterControllers s' = <[k:=length (chans s)]> (clusterControllers s) ∧
             chans s' = chans s ++ [Chan clusterControllerNotificationBuffer 0 false] ∧
             trace s' = trace s ++ ACall k :: fs ++
                          [AMake (length (chans s)) clusterControllerNotificationBuffer;
                           AGo (Some w) (length (chans s))] ∧
             cc_clusterName w = k ∧
             cc_clusterSpec w = Cluster_Spec cl ∧
             cc_clusterAssetsDir w = ForCluster (assetsDir s) k))).
Proof.
  unfold runs, create, newClusterController. unfold_M. simpl.
  destruct (os_MkdirAll _ _ _) as [w1 [e1|]]; simpl.
  { eexists _, _. split; [done|]. simpl. split; [done|].
    eexists [_]. split; [|left; eexists; rewrite <- !app_assoc; by split_and!].
    by repeat constructor. }
  destruct (os_Create _ _) as [w2 [logFile [e2|]]]; simpl.
  { eexists _, _. split; [done|]. simpl. split; [done|].
    eexists [_; _]. split; [|left; eexists; rewrite <- !app_assoc; by split_and!].
    by repeat constructor. }
  destruct (newExecutor _ _ _ _) as [w3 [executor [e3|]]]; simpl.
  { eexists _, _. split; [done|]. simpl. split; [done|].
    eexists [_; _; _]. split; [|left; eexists; rewrite <- !app_assoc; by split_and!].
    by repeat constructor. }
  eexists _, _. split; [done|]. simpl. split; [done|].
  eexists [_; _; _]. split; [|right; eexists; rewrite <- !app_assoc; by split_and!].
  by repeat constructor.
Qed.

Lemma notify_post k c s :
  post (notify k c) s (λ _ s',
    clusterControllers s' = clusterControllers s ∧ assetsDir s' = assetsDir s ∧
    length (chans s') = length (chans s) ∧
    ∃ acts, trace s' = trace s ++ acts ∧
            calls acts = [] ∧ closes acts = [] ∧ attempts acts = [c] ∧ started acts = []).
Proof.
  unfold post, notify. intros [] s'.
  destruct (chans s !! c) as [ch|]; [destruct (chan_closed ch); [done|]|].
  - case_bool_decide; intros [= <-]; simpl.
    + split_and!; [done|done|apply length_insert|]. by exists [ASend c].
    + split_and!; [done|done|done|]. by eexists [ADrop c; _].
  - intros [= <-]; simpl. split_and!; [done|done|done|]. by eexists [ADrop c; _].
Qed.

Lemma close_post c s :
  post (close c) s (λ _ s',
    clusterControllers s' = clusterControllers s ∧ assetsDir s' = assetsDir s ∧
    length (chans s') = length (chans s) ∧ trace s' = trace s ++ [AClose c]).
Proof.
  unfold post, close. intros [] s'.
  destruct (chans s !! c) as [ch|]; [destruct (chan_closed ch); [done|]|done].
  intros [= <-]; simpl. split_and!; [done|done|apply length_insert|done].
Qed.

(** ** Workers and entries *)

Lemma workers_ok_frame s s' acts :
  workers_ok s →
  clusterControllers s' = clusterControllers s → assetsDir s' = assetsDir s →
  length (chans s') = length (chans s) →
  trace s' = trace s ++ acts → started acts = [] →
  workers_ok s'.
Proof.
  intros (J1 & J2 & J3) Hreg Hdir Hlen Htr Hst. unfold workers_ok.
  rewrite Hreg, Hdir, Hlen, Htr. split_and!.
  - intros k c Hk. destruct (J1 k c Hk) as (w & Hin & Hn). exists w.
    split; [|done]. apply elem_of_app; by left.
  - intros cc c [Hin|Hin]%elem_of_app.
    + destruct (J2 cc c Hin) as (w & -> & Hd & Hor). exists w. split_and!; [done|done|].
      destruct Hor as [Hcl|Hk]; [left|by right]. apply elem_of_app; by left.
    + apply started_elem in Hin. rewrite Hst in Hin. by apply elem_of_nil in Hin.
  - unfold started in *. by rewrite omap_app, Hst, app_nil_r.
Qed.

Lemma workers_ok_delete s s' k c :
  workers_ok s → clusterControllers s !! k = Some c →
  clusterControllers s' = delete k (clusterControllers s) →
  assetsDir s' = assetsDir s → length (chans s') = length (chans s) →
  trace s' = trace s ++ [AClose c] →
  workers_ok s'.
Proof.
  intros (J1 & J2 & J3) Hk Hreg Hdir Hlen Htr. unfold workers_ok.
  rewrite Hreg, Hdir, Hlen, Htr. split_and!.
  - intros k' c' [Hne Hk']%lookup_delete_Some.
    destruct (J1 k' c' Hk') as (w & Hin & Hn). exists w.
    split; [|done]. apply elem_of_app; by left.
  - intros cc c' [Hin|Hin]%elem_of_app; [|by apply list_elem_of_singleton in Hin].
    destruct (J2 cc c' Hin) as (w & -> & Hd & Hor). exists w. split_and!; [done|done|].
    destruct Hor as [Hcl|Hk']; [left; apply elem_of_app; by left|].
    destruct (decide (cc_clusterName w = k)) as [Heq|Hne].
    + left. rewrite Heq, Hk in Hk'. injection Hk' as ->.
      apply elem_of_app; right. by left.
    + right. by rewrite lookup_delete_ne.
  - proj. by rewrite app_nil_r.
Qed.

Lemma workers_ok_create s s' k w fs x cap :
  workers_ok s → clusterControllers s !! k = None →
  clusterControllers s' = <[k:=length (chans s)]> (clusterControllers s) →
  chans s' = chans s ++ [x] → assetsDir s' = assetsDir s →
  trace s' = trace s ++ ACall k :: fs ++
               [AMake (length (chans s)) cap; AGo (Some w) (length (chans s))] →
  Forall fs_action fs →
  cc_clusterName w = k → cc_clusterAssetsDir w = ForCluster (assetsDir s) k →
  workers_ok s'.
Proof.
  intros (J1 & J2 & J3) Hk Hreg Hch Hdir Htr Hfs Hname Hwdir.
  destruct (fs_action_silent fs Hfs) as (_ & _ & _ & Hst).
  assert (∀ cc c, AGo cc c ∈ ACall k :: fs ++
            [AMake (length (chans s)) cap; AGo (Some w) (length (chans s))] →
          cc = Some w ∧ c = length (chans s)) as Hnew.
  { intros cc c [?|[Hin|Hin]%elem_of_app]%elem_of_cons; [done| |].
    - apply started_elem in Hin. rewrite Hst in Hin. by apply elem_of_nil in Hin.
    - apply elem_of_cons in Hin as [?|Hin]; [done|].
      by apply list_elem_of_singleton in Hin as [= -> ->]. }
  unfold workers_ok. rewrite Hreg, Hdir, Hch, Htr. split_and!.
  - intros k' c' [[<- <-]|[Hne Hk']]%lookup_insert_Some.
    + exists w. split; [|done]. apply elem_of_app; right. right.
      apply elem_of_app; right. right. by left.
    + destruct (J1 k' c' Hk') as (w' & Hin & Hn). exists w'.
      split; [|done]. apply elem_of_app; by left.
  - intros cc c [Hin|Hin]%elem_of_app.
    + destruct (J2 cc c Hin) as (w' & -> & Hd & Hor). exists w'. split_and!; [done|done|].
      destruct Hor as [Hcl|Hk']; [left; apply elem_of_app; by left|right].
      rewrite lookup_insert_ne; [done|]. intros Heq. rewrite <- Heq in Hk'. congruence.
    + destruct (Hnew cc c Hin) as [-> ->]. exists w. split_and!; [done|congruence|].
      right. rewrite Hname. apply lookup_insert_eq.
  - rewrite length_app. simpl. rewrite Nat.add_1_r, seq_S. simpl.
    unfold started in *. rewrite omap_app. simpl. rewrite omap_app, Hst. simpl.
    by rewrite J3.
Qed.

Lemma runs_is_post {A} (m : M A) s (Q : A → State → Prop) : runs m s Q → post m s Q.
Proof.
  intros (x & s' & Hrun & HQ) a s'' Hrun'. rewrite Hrun in Hrun'.
  by injection Hrun' as <- <-.
Qed.

Lemma NoDup_omap_inj {A B} (f : A → option B) (l : list A) :
  NoDup l →
  (∀ x y z, x ∈ l → y ∈ l → f x = Some z → f y = Some z → x = y) →
  NoDup (omap f l).
Proof.
  induction 1 as [|x l Hnin Hnd IH]; intros Hinj; simpl; [constructor|].
  assert (NoDup (omap f l)) as IH'.
  { apply IH. intros x' y z Hx Hy. apply Hinj; by right. }
  destruct (f x) as [z|] eqn:Hfx; [|done]. constructor; [|done].
  intros (y & Hy & Hfy)%list_elem_of_omap. apply Hnin.
  rewrite (Hinj x y z); [done|by left|by right|done|done].
Qed.

Lemma workers_ok_init dir w : workers_ok (init dir w).
Proof.
  split_and!; simpl.
  - intros k c. by rewrite lookup_empty.
  - by intros cc c []%elem_of_nil.
  - done.
Qed.

(** ** The watch case, exactly *)

Lemma on_watch_create_exact k v cluster s :
  clusterControllers s !! k = None →
  json_Unmarshal (default [] v) = (cluster, None) →
  ∃ s' fs, on_watch k v s = Ok tt s' ∧ Forall fs_action fs ∧
    assetsDir s' = assetsDir s ∧
    ((∃ e, clusterControllers s' = clusterControllers s ∧ chans s' = chans s ∧
           trace s' = trace s ++ ACall k :: fs ++ [ALog (LogCreateErr k e)]) ∨
     (∃ w, clusterControllers s' = <[k:=length (chans s)]> (clusterControllers s) ∧
           chans s' = chans s ++ [Chan clusterControllerNotificationBuffer 1 false] ∧
           trace s' = trace s ++ ACall k :: fs ++
                        [AMake (length (chans s)) clusterControllerNotificationBuffer;
                         AGo (Some w) (length (chans s));
                         ASend (length (chans s))] ∧
           cc_clusterName w = k ∧
           cc_clusterSpec w = Cluster_Spec cluster ∧
           cc_clusterAssetsDir w = ForCluster (assetsDir s) k)).
Proof.
  intros Hk Hjson.
  destruct (create_exact k cluster s) as (r & s1 & Hrun & Hdir & fs & Hfs & Hres).
  unfold on_watch. unfold mbind at 1, M_bind at 1. unfold get at 1. rewrite Hk, Hjson.
  unfold mbind, M_bind. rewrite Hrun.
  destruct Hres as [(e & -> & Hreg & Hch & Htr)|(w & -> & Hreg & Hch & Htr & Hw)].
  - exists s1, fs. split; [done|]. split_and!; [done|done|]. left. by exists e.
  - assert (notify k (length (chans s)) s1 =
            Ok tt (add_trace [ASend (length (chans s))]
                     (set_chans (chans s ++ [Chan clusterControllerNotificationBuffer 1 false])
                        s1))) as Hnot.
    { unfold notify. rewrite Hch, list_lookup_middle by done. simpl.
      rewrite insert_app_r_alt by lia. rewrite Nat.sub_diag. reflexivity. }
    eexists _, fs. split; [exact Hnot|]. simpl. split_and!; [done|done|]. right.
    destruct Hw as (Hn & Hsp & Hd).
    exists w. rewrite Hreg, Htr. split_and!; [done|done| |done|done|done].
    rewrite <- app_assoc. simpl. by rewrite <- app_assoc.
Qed.

Lemma on_watch_post k v s :
  post (on_watch k v) s (λ _ s', workers_ok s → workers_ok s').
Proof.
  unfold on_watch. apply post_get.
  destruct (clusterControllers s !! k) as [c|] eqn:Hk; [destruct v as [v|]|].
  - eapply post_mono; [apply notify_post|].
    intros [] s' (Hreg & Hdir & Hlen & acts & Htr & _ & _ & _ & Hst) Hwo.
    by apply (workers_ok_frame s s' acts).
  - apply post_bind. eapply post_mono; [apply close_post|].
    intros [] s' (Hreg & Hdir & Hlen & Htr) [] s'' [= <-] Hwo.
    apply (workers_ok_delete s _ k c); simpl; try done. by rewrite Hreg.
  - destruct (json_Unmarshal _) as [cluster [e|]] eqn:Hjson.
    + intros [] s' [= <-] Hwo.
      by apply (workers_ok_frame s _ [ALog (LogUnmarshalErr k e)]).
    + intros [] s' Hrun Hwo.
      destruct (on_watch_create_exact k v cluster s Hk Hjson)
        as (s2 & fs & Hrun2 & Hfs & Hdir & Hres).
      unfold on_watch in Hrun2. unfold mbind at 1, M_bind at 1, get at 1 in Hrun2.
      rewrite Hk, Hjson in Hrun2. rewrite Hrun2 in Hrun. injection Hrun as <-.
      destruct (fs_action_silent fs Hfs) as (_ & _ & _ & Hst).
      destruct Hres as [(e & Hreg & Hch & Htr)|(w & Hreg & Hch & Htr & Hn & _ & Hd)].
      * apply (workers_ok_frame s s2 (ACall k :: fs ++ [ALog (LogCreateErr k e)]));
          try done; [by rewrite Hch|]. proj. by rewrite Hst.
      * apply (workers_ok_frame
                 (add_trace (ACall k :: fs ++
                    [AMake (length (chans s)) clusterControllerNotificationBuffer;
                     AGo (Some w) (length (chans s))])
                    (set_chans (chans s ++ [Chan clusterControllerNotificationBuffer 1 false])
                       (set_clusterControllers
                          (<[k:=length (chans s)]> (clusterControllers s)) s)))
                 s2 [ASend (length (chans s))]); simpl; try done.
        -- eapply (workers_ok_create s _ k w fs); simpl; try done.
        -- by rewrite Hch.
        -- rewrite Htr, <- app_assoc. simpl. by rewrite <- app_assoc.
Qed.

(** ** The tick case, exactly *)

Lemma tick_create_exact (m : gmap string Cluster) s0 :
  post (range (λ _, m) (λ clusterName cluster,
          s ← get;
          match clusterControllers s !! clusterName with
          | Some _ => mret tt
          | None => create clusterName cluster;; mret tt
          end)) s0
    (λ _ s, (workers_ok s0 → workers_ok s) ∧
       ∃ acts ks, trace s = trace s0 ++ acts ∧ ks ≡ₚ (map_to_list m).*1 ∧
         calls acts = filter (λ k, clusterControllers s0 !! k = None) ks ∧
         closes acts = [] ∧ attempts acts = []).
Proof.
  eapply post_mono.
  - apply (post_range _ _ s0 (λ pre s, (workers_ok s0 → workers_ok s) ∧
       (∀ k c, clusterControllers s0 !! k = Some c → clusterControllers s !! k = Some c) ∧
       (∀ k, clusterControllers s0 !! k = None → k ∉ pre →
             clusterControllers s !! k = None) ∧
       ∃ acts, trace s = trace s0 ++ acts ∧
         calls acts = filter (λ k, clusterControllers s0 !! k = None) pre ∧
         closes acts = [] ∧ attempts acts = [])).
    intros w ks Hperm. cbv beta in Hperm. split.
    + split_and!; [done|done|done|]. exists []. simpl. by rewrite app_nil_r.
    + intros pre k rest s Hks (Hwo & P1 & P2 & acts & Htr & Hcalls & Hcl & Hat).
      assert (k ∉ pre) as Hnotin.
      { eapply NoDup_split_notin. rewrite <- Hks. by eapply keys_perm_NoDup. }
      assert (is_Some (m !! k)) as [cl Hcl'].
      { eapply (keys_perm_elem m ks); [done|]. rewrite Hks.
        apply elem_of_app; right. by left. }
      apply post_get. rewrite Hcl'. apply post_get.
      destruct (clusterControllers s !! k) as [c|] eqn:Hk.
      * apply post_ret. split_and!; [done|done| |].
        -- intros k' H0 Hnin. apply P2; [done|]. intros Hin. apply Hnin.
           apply elem_of_app; by left.
        -- exists acts. split_and!; [done| |done|done].
           rewrite filter_app, Hcalls, filter_cons, filter_nil.
           destruct (decide _) as [H0|]; [|by rewrite app_nil_r].
           rewrite (P2 k H0 Hnotin) in Hk. done.
      * assert (clusterControllers s0 !! k = None) as Hk0.
        { destruct (clusterControllers s0 !! k) as [c|] eqn:Hk0; [|done].
          apply P1 in Hk0. congruence. }
        apply post_bind. eapply post_mono; [apply runs_is_post, create_exact|].
        intros r s1 (Hdir & fs & Hfs & Hres). apply post_ret.
        destruct (fs_action_silent fs Hfs) as (Hc1 & Hc2 & Hc3 & Hc4).
        assert (∀ k', k' ≠ k → clusterControllers s1 !! k' = clusterControllers s !! k')
          as Hother.
        { intros k' Hne. destruct Hres as [(e & _ & -> & _)|(w' & _ & -> & _)]; [done|].
          by rewrite lookup_insert_ne. }
        split_and!.
        -- intros Hwo0. specialize (Hwo Hwo0).
           destruct Hres as [(e & _ & Hreg & Hch & Htr1)|(w' & _ & Hreg & Hch & Htr1 & Hn & _ & Hd)].
           ++ apply (workers_ok_frame s s1 (ACall k :: fs ++ [ALog (LogCreateErr k e)]));
                try done; [by rewrite Hch|]. proj. by rewrite Hc4.
           ++ by eapply (workers_ok_create s s1 k w' fs).
        -- intros k' c' H0. rewrite Hother; [by apply P1|]. intros ->. congruence.
        -- intros k' H0 Hnin. rewrite Hother; [apply P2; [done|]|].
           ++ intros Hin. apply Hnin. apply elem_of_app; by left.
           ++ intros ->. apply Hnin. apply elem_of_app; right. by left.
        -- destruct Hres as [(e & _ & _ & _ & Htr1)|(w' & _ & _ & _ & Htr1 & _)].
           ++ exists (acts ++ ACall k :: fs ++ [ALog (LogCreateErr k e)]).
              rewrite Htr1, Htr, <- app_assoc. split; [done|].
              rewrite filter_app, filter_cons, filter_nil.
              rewrite decide_True by done.
              proj. by rewrite Hcalls, Hcl, Hat, Hc1, Hc2, Hc3.
           ++ eexists (acts ++ ACall k :: fs ++ [_; _]).
              rewrite Htr1, Htr, <- app_assoc. split; [done|].
              rewrite filter_app, filter_cons, filter_nil.
              rewrite decide_True by done.
              proj. by rewrite Hcalls, Hcl, Hat, Hc1, Hc2, Hc3.
  - intros [] s (ks & Hperm & Hwo & _ & _ & acts & Htr & Hcalls & Hcl & Hat).
    cbv beta in Hperm. split; [done|]. by exists acts, ks.
Qed.

Lemma tick_remove_exact (m : gmap string Cluster) s1 :
  post (range clusterControllers (λ clusterName ch,
          match m !! clusterName with
          | Some _ => mret tt
          | None => close ch;; map_delete clusterName
          end)) s1
    (λ _ s, (workers_ok s1 → workers_ok s) ∧
       ∃ acts ks, trace s = trace s1 ++ acts ∧
         ks ≡ₚ (map_to_list (clusterControllers s1)).*1 ∧
         calls acts = [] ∧ attempts acts = [] ∧
         closes acts = omap (λ k, match m !! k with
                                  | Some _ => None
                                  | None => clusterControllers s1 !! k
                                  end) ks).
Proof.
  eapply post_mono.
  - apply (post_range _ _ s1 (λ pre s, (workers_ok s1 → workers_ok s) ∧
       (∀ k, k ∉ pre → clusterControllers s !! k = clusterControllers s1 !! k) ∧
       ∃ acts, trace s = trace s1 ++ acts ∧ calls acts = [] ∧ attempts acts = [] ∧
         closes acts = omap (λ k, match m !! k with
                                  | Some _ => None
                                  | None => clusterControllers s1 !! k
                                  end) pre)).
    intros w ks Hperm. split.
    + split_and!; [done|done|]. exists []. simpl. by rewrite app_nil_r.
    + intros pre k rest s Hks (Hwo & Hsame & acts & Htr & Hca & Hat & Hcl).
      assert (k ∉ pre) as Hnotin.
      { eapply NoDup_split_notin. rewrite <- Hks. by eapply keys_perm_NoDup. }
      assert (∀ k', k' ∉ (pre ++ [k]) → (k' ∉ pre) ∧ k' ≠ k) as Hsplit.
      { intros k' Hnin. split; [intros ?|intros ->]; apply Hnin, elem_of_app;
          [by left|right; by left]. }
      apply post_get. rewrite (Hsame k Hnotin).
      destruct (clusterControllers s1 !! k) as [c|] eqn:Hk1;
        [destruct (m !! k) as [cl|] eqn:Hm|].
      * apply post_ret. split_and!; [done| |].
        -- intros k' Hnin. apply Hsame. by apply Hsplit.
        -- exists acts. split_and!; [done|done|done|].
           rewrite omap_app. simpl. rewrite Hm. by rewrite app_nil_r.
      * apply post_bind. eapply post_mono; [apply close_post|].
        intros [] s' (Hreg & Hdir & Hlen & Htr') [] s'' [= <-]. simpl. split_and!.
        -- intros Hwo1. apply (workers_ok_delete s _ k c); simpl; try done.
           ++ by apply Hwo.
           ++ by rewrite Hsame.
           ++ by rewrite Hreg.
        -- intros k' [Hnin Hne]%Hsplit. rewrite Hreg, lookup_delete_ne by done.
           by apply Hsame.
        -- exists (acts ++ [AClose c]). rewrite Htr', Htr, <- app_assoc.
           split; [done|]. rewrite omap_app. simpl. rewrite Hm, Hk1. simpl.
           proj. by rewrite Hca, Hat, Hcl.
      * apply post_ret. split_and!; [done| |].
        -- intros k' Hnin. apply Hsame. by apply Hsplit.
        -- exists acts. split_and!; [done|done|done|].
           rewrite omap_app. simpl. rewrite Hk1. destruct (m !! k); by rewrite app_nil_r.
  - intros [] s (ks & Hperm & Hwo & _ & acts & Htr & Hca & Hat & Hcl).
    split; [done|]. by exists acts, ks.
Qed.

Lemma tick_sweep_exact s2 :
  post (range clusterControllers (λ clusterName ch, notify clusterName ch)) s2
    (λ _ s, (workers_ok s2 → workers_ok s) ∧
       clusterControllers s = clusterControllers s2 ∧
       ∃ acts ks, trace s = trace s2 ++ acts ∧
         ks ≡ₚ (map_to_list (clusterControllers s2)).*1 ∧
         calls acts = [] ∧ closes acts = [] ∧
         attempts acts = omap (clusterControllers s2 !!.) ks).
Proof.
  eapply post_mono.
  - apply (post_range _ _ s2 (λ pre s, (workers_ok s2 → workers_ok s) ∧
       clusterControllers s = clusterControllers s2 ∧
       ∃ acts, trace s = trace s2 ++ acts ∧ calls acts = [] ∧ closes acts = [] ∧
         attempts acts = omap (clusterControllers s2 !!.) pre)).
    intros w ks Hperm. split.
    + split_and!; [done|done|]. exists []. simpl. by rewrite app_nil_r.
    + intros pre k rest s Hks (Hwo & Hreg & acts & Htr & Hca & Hcl & Hat).
      apply post_get. rewrite Hreg.
      destruct (clusterControllers s2 !! k) as [c|] eqn:Hk2.
      * eapply post_mono; [apply notify_post|].
        intros [] s' (Hreg' & Hdir & Hlen & acts' & Htr' & Hca' & Hcl' & Hat' & Hst').
        split_and!.
        -- intros Hwo2. by apply (workers_ok_frame s s' acts'); [apply Hwo|..].
        -- congruence.
        -- exists (acts ++ acts'). rewrite Htr', Htr, <- app_assoc. split; [done|].
           rewrite omap_app. simpl. rewrite Hk2. simpl.
           unfold calls, closes, attempts in *. rewrite !omap_app.
           by rewrite Hca, Hcl, Hat, Hca', Hcl', Hat'.
      * apply post_ret. split_and!; [done|done|]. exists acts.
        split_and!; [done|done|done|]. rewrite omap_app. simpl. rewrite Hk2.
        by rewrite app_nil_r.
  - intros [] s (ks & Hperm & Hwo & Hreg & acts & Htr & Hca & Hcl & Hat).
    split_and!; [done|done|]. by exists acts, ks.
Qed.

Lemma on_tick_post (m : gmap string Cluster) err s :
  post (on_tick m err) s (λ _ s', workers_ok s → workers_ok s').
Proof.
  destruct err as [e|].
  - intros [] s' Hrun. rewrite on_tick_error in Hrun. injection Hrun as <-.
    intros Hwo. by apply (workers_ok_frame s _ [ALog LogTick; ALog (LogGetAllErr e)]).
  - unfold on_tick. apply post_bind. intros [] s0 [= <-].
    assert (workers_ok s → workers_ok (add_trace [ALog LogTick] s)) as H0.
    { intros Hwo. by apply (workers_ok_frame s _ [ALog LogTick]). }
    apply post_bind. eapply post_mono; [apply tick_create_exact|].
    intros [] s1 (H1 & _). apply post_bind.
    eapply post_mono; [apply tick_remove_exact|].
    intros [] s2 (H2 & _). eapply post_mono; [apply tick_sweep_exact|].
    intros [] s3 (H3 & _). auto.
Qed.

(** In one tick the factory is called once for each defined cluster that has
    no worker and for no other; each stale entry's channel is closed once and
    no other channel is; and a send is attempted once on the channel of each
    entry left at the end and on no other. *)
Lemma on_tick_exact (m : gmap string Cluster) s :
  wf s →
  runs (on_tick m None) s (λ _ s',
    ∃ acts, trace s' = trace s ++ acts ∧
      NoDup (calls acts) ∧
      (∀ k, k ∈ calls acts ↔ is_Some (m !! k) ∧ clusterControllers s !! k = None) ∧
      NoDup (closes acts) ∧
      (∀ c, c ∈ closes acts ↔ ∃ k, clusterControllers s !! k = Some c ∧ m !! k = None) ∧
      NoDup (attempts acts) ∧
      (∀ c, c ∈ attempts acts ↔ ∃ k, clusterControllers s' !! k = Some c)).
Proof.
  intros Hwf. unfold on_tick. apply runs_bind.
  exists tt, (add_trace [ALog LogTick] s). split; [done|].
  apply runs_bind.
  eapply runs_mono; [apply runs_post; [apply tick_create_phase; exact Hwf
                                      |apply tick_create_exact]|].
  intros [] s1 [(Hwf1 & _ & acts1' & _ & _ & P1 & P2 & _)
                (_ & acts1 & ks1 & Htr1 & Hp1 & Hca1 & Hcl1 & Hat1)].
  apply runs_bind.
  eapply runs_mono; [apply runs_post; [by apply tick_remove_phase
                                      |apply tick_remove_exact]|].
  intros [] s2 [(Hwf2 & _) (_ & acts2 & ks2 & Htr2 & Hp2 & Hca2 & Hat2 & Hcl2)].
  eapply runs_mono; [apply runs_post; [by apply tick_sweep_phase
                                      |apply tick_sweep_exact]|].
  intros [] s3 [(Hwf3 & _ & Hreg3 & _) (_ & _ & acts3 & ks3 & Htr3 & Hp3 & Hca3 & Hcl3 & Hat3)].
  simpl in P1, P2, Hca1.
  exists (ALog LogTick :: acts1 ++ acts2 ++ acts3).
  assert (calls (ALog LogTick :: acts1 ++ acts2 ++ acts3)
          = filter (λ k, clusterControllers s !! k = None) ks1) as ->.
  { unfold calls in *. simpl. rewrite !omap_app, Hca1, Hca2, Hca3.
    by rewrite !app_nil_r. }
  assert (closes (ALog LogTick :: acts1 ++ acts2 ++ acts3)
          = omap (λ k, match m !! k with
                       | Some _ => None
                       | None => clusterControllers s1 !! k
                       end) ks2) as ->.
  { unfold closes in *. simpl. rewrite !omap_app, Hcl1, Hcl2, Hcl3.
    by rewrite app_nil_r. }
  assert (attempts (ALog LogTick :: acts1 ++ acts2 ++ acts3)
          = omap (clusterControllers s2 !!.) ks3) as ->.
  { unfold attempts in *. simpl. rewrite !omap_app, Hat1, Hat2, Hat3. done. }
  split_and!.
  - rewrite Htr3, Htr2, Htr1. simpl. by rewrite <- !app_assoc.
  - apply NoDup_filter. by eapply keys_perm_NoDup.
  - intros k. rewrite list_elem_of_filter, (keys_perm_elem m ks1 k Hp1). tauto.
  - apply NoDup_omap_inj; [by eapply keys_perm_NoDup|].
    intros k1 k2 c _ _ H1 H2. destruct (m !! k1), (m !! k2); try done.
    by apply (proj2 Hwf1 k1 k2 c).
  - intros c. rewrite list_elem_of_omap. split.
    + intros (k & _ & Hf). exists k. destruct (m !! k) eqn:Hm; [done|]. split; [|done].
      destruct (clusterControllers s !! k) as [c0|] eqn:Hk.
      * apply P1 in Hk. congruence.
      * rewrite (P2 k Hk Hm) in Hf. done.
    + intros (k & Hk & Hm). exists k. apply P1 in Hk. split.
      * apply (keys_perm_elem _ ks2 k Hp2). by exists c.
      * by rewrite Hm.
  - apply NoDup_omap_inj; [by eapply keys_perm_NoDup|].
    intros k1 k2 c _ _ H1 H2. by apply (proj2 Hwf2 k1 k2 c).
  - intros c. rewrite list_elem_of_omap, Hreg3. split.
    + intros (k & _ & Hk). by exists k.
    + intros (k & Hk). exists k. split; [|done].
      apply (keys_perm_elem _ ks3 k Hp3). by exists c.
Qed.

(** ** Shutdown and the loop, exactly *)

Lemma on_done_post s :
  post on_done s (λ _ s', workers_ok s → workers_ok s').
Proof.
  unfold on_done. apply post_bind. intros [] s0 [= <-].
  eapply post_mono.
  - apply (post_range _ _ _ (λ _ s', workers_ok s → workers_ok s')).
    intros w ks Hperm. split.
    + intros Hwo. by apply (workers_ok_frame s _ [ALog LogStopping]).
    + intros pre k rest s' _ Hwo. apply post_get.
      destruct (clusterControllers s' !! k) as [c|]; [|by apply post_ret].
      eapply post_mono; [apply close_post|].
      intros [] s'' (Hreg & Hdir & Hlen & Htr) Hwo0.
      apply (workers_ok_frame s' s'' [AClose c]); auto.
  - by intros [] s' (ks & _ & Hwo).
Qed.

Lemma worker_recv_post c s :
  post (worker_recv c) s (λ _ s', workers_ok s → workers_ok s').
Proof.
  unfold post, worker_recv. intros [] s'.
  destruct (chans s !! c) as [ch|]; intros [= <-] Hwo; [|done].
  apply (workers_ok_frame s _ []); simpl; try done.
  - apply length_insert.
  - by rewrite app_nil_r.
Qed.

Lemma step_post e s : post (step e) s (λ _ s', workers_ok s → workers_ok s').
Proof.
  destruct e as [k v|m err|]; simpl; apply post_bind.
  - eapply post_mono; [apply on_watch_post|]. intros [] s' Hwo. by apply post_ret.
  - eapply post_mono; [apply on_tick_post|]. intros [] s' Hwo. by apply post_ret.
  - eapply post_mono; [apply on_done_post|]. intros [] s' Hwo. by apply post_ret.
Qed.

Lemma loop_post ins s : post (loop ins) s (λ _ s', workers_ok s → workers_ok s').
Proof.
  revert s. induction ins as [|[e|c] ins IH]; intros s; simpl.
  - by apply post_ret.
  - apply post_bind. eapply post_mono; [apply step_post|].
    intros [] s' Hwo.
    + eapply post_mono; [apply IH|]. intros r s'' Hwo'. auto.
    + apply post_ret. auto.
  - apply post_bind. eapply post_mono; [apply worker_recv_post|].
    intros [] s' Hwo. eapply post_mono; [apply IH|]. intros r s'' Hwo'. auto.
Qed.

Lemma loop_return_closed ins s :
  wf s →
  runs (loop ins) s (λ r s',
    r = Return → ∀ k c, clusterControllers s' !! k = Some c → closed s' c).
Proof.
  revert s. induction ins as [|[e|c] ins IH]; intros s Hwf.
  - by apply runs_ret.
  - destruct (step_spec e s Hwf) as (r & s' & Hstep & _ & Hcont & Hret).
    unfold runs. rewrite loop_select, Hstep. destruct r.
    + apply IH. apply Hcont. intros ->. by specialize (Hret eq_refl).
    + exists Return, s'. split; [done|]. intros _ k c' Hk.
      destruct e as [k' v|m err|]; try (by destruct Hcont).
      destruct (on_done_spec s Hwf) as ([] & s2 & Hrun & Hreg & _ & Hcl & _).
      simpl in Hstep. unfold mbind, M_bind in Hstep. rewrite Hrun in Hstep.
      injection Hstep as <-. apply (Hcl k c'). by rewrite <- Hreg.
  - simpl. apply runs_bind. eapply runs_mono; [by apply worker_recv_spec|].
    intros [] s' (Hwf' & _). by apply IH.
Qed.

(** Everything the loop keeps, for a run from a controller with no worker. *)
Lemma Run_full ins dir w :
  runs (Run ins) (init dir w) (λ r s',
    tr_ok s' ∧ workers_ok s' ∧ assetsDir s' = dir ∧
    (r = Return → ∀ k c, clusterControllers s' !! k = Some c → closed s' c)).
Proof.
  unfold Run. apply runs_bind.
  exists tt, (add_trace [ALog LogStarted] (init dir w)). split; [done|].
  assert (wf (add_trace [ALog LogStarted] (init dir w))) as Hwf by apply wf_init.
  assert (tr_ok (add_trace [ALog LogStarted] (init dir w))) as Htr.
  { split; simpl.
    - intros c Hin. revert Hin. solve_notin.
    - apply nsac_no_close. intros c. solve_notin. }
  assert (workers_ok (add_trace [ALog LogStarted] (init dir w))) as Hwo.
  { by apply (workers_ok_frame (init dir w) _ [ALog LogStarted]);
      [apply workers_ok_init|..]. }
  eapply runs_mono.
  - apply runs_post; [apply runs_post; [by apply loop_spec|]|].
    + apply runs_is_post. by apply loop_return_closed.
    + apply loop_post.
  - intros r s' [[[(_ & Hk & _ & Hd) _] Hret] Hpost]. simpl in *.
    split_and!; auto.
Qed.



Lemma step_of_on_tick (m : gmap string Cluster) err s s' :
  on_tick m err s = Ok tt s' → step (EvTick m err) s = Ok Continue s'.
Proof. intros Hrun. simpl. unfold mbind, M_bind. by rewrite Hrun. Qed.

(** * Further properties of the loop *)


(** X3: after a tick whose snapshot fetch succeeded, every defined cluster
    has a worker unless the factory's error for it was logged in this tick;
    so when no such error was logged the keys of the map of workers are
    exactly the keys of the snapshot. *)
Theorem tick_converges_to_snapshot (definedClusters : gmap string Cluster) s :
  wf s →
  ∃ s' acts,
    step (EvTick definedClusters None) s = Ok Continue s' ∧
    trace s' = trace s ++ acts ∧
    (∀ k, is_Some (definedClusters !! k) →
          is_Some (clusterControllers s' !! k) ∨ ∃ e, ALog (LogCreateErr k e) ∈ acts) ∧
    ((∀ k e, ALog (LogCreateErr k e) ∉ acts) →
     dom (clusterControllers s') = dom definedClusters).
Proof.
  intros Hwf.
  destruct (on_tick_spec definedClusters s Hwf)
    as ([] & s' & Hrun & _ & _ & acts1 & acts2 & acts3 & Htr & _ & _ & _ & T1 & _ & T3 & T4 & _).
  assert (∀ k, is_Some (definedClusters !! k) →
            is_Some (clusterControllers s' !! k) ∨
            ∃ e, ALog (LogCreateErr k e) ∈ ALog LogTick :: acts1 ++ acts2 ++ acts3) as Hall.
  { intros k Hm. destruct (clusterControllers s !! k) as [c|] eqn:Hk.
    - left. exists c. by apply T3.
    - destruct (T4 k Hm Hk) as [_ [(e & Hlog & _)|(c & _ & Hsome & _)]].
      + right. exists e. right. apply elem_of_app; by left.
      + left. by exists c. }
  exists s', (ALog LogTick :: acts1 ++ acts2 ++ acts3).
  split_and!; [by apply step_of_on_tick|done|done|].
  intros Hnone. apply set_eq. intros k. rewrite !elem_of_dom. split.
  - intros [c Hc]. by apply (T1 k c).
  - intros Hm. destruct (Hall k Hm) as [?|[e He]]; [done|]. by apply Hnone in He.
Qed.

(** X4: a tick does not disturb the worker of a cluster that is still
    defined: the entry keeps its channel, the channel is still open, the
    factory is not called for that name and the channel is not closed. *)
Theorem tick_keeps_running_workers (definedClusters : gmap string Cluster) s k c :
  wf s →
  clusterControllers s !! k = Some c →
  is_Some (definedClusters !! k) →
  ∃ s' acts,
    step (EvTick definedClusters None) s = Ok Continue s' ∧
    trace s' = trace s ++ acts ∧
    clusterControllers s' !! k = Some c ∧
    (∃ ch, chans s' !! c = Some ch ∧ chan_closed ch = false) ∧
    (k ∉ calls acts) ∧ (c ∉ closes acts).
Proof.
  intros Hwf Hk Hm.
  destruct (runs_post _ _ _ _ (on_tick_spec definedClusters s Hwf)
              (runs_is_post _ _ _ (on_tick_exact definedClusters s Hwf)))
    as ([] & s' & Hrun & (Hwf' & _ & _ & _ & _ & _ & _ & _ & _ & _ & _ & T3 & _)
        & acts & Htr & _ & Hcalls & _ & Hcloses & _).
  exists s', acts. split_and!; [by apply step_of_on_tick|done| | | |].
  - by apply T3.
  - apply (proj1 Hwf' k c). by apply T3.
  - rewrite Hcalls. intros [_ Hnone]. congruence.
  - rewrite Hcloses. intros (k' & Hk' & Hm').
    rewrite (proj2 Hwf k k' c Hk Hk') in Hm. rewrite Hm' in Hm. by destruct Hm.
Qed.

(** X5: what a tick whose snapshot fetch succeeded does, exactly once each:
    the factory is called once for every defined cluster without a worker
    and for no other name; the channel of every stale entry is closed once
    and no other channel is closed; and one send is attempted on the channel
    of every entry left at the end and on no other channel. *)
Theorem tick_actions_exactly_once (definedClusters : gmap string Cluster) s :
  wf s →
  ∃ s' acts,
    step (EvTick definedClusters None) s = Ok Continue s' ∧
    trace s' = trace s ++ acts ∧
    NoDup (calls acts) ∧
    (∀ k, k ∈ calls acts ↔
          is_Some (definedClusters !! k) ∧ clusterControllers s !! k = None) ∧
    NoDup (closes acts) ∧
    (∀ c, c ∈ closes acts ↔
          ∃ k, clusterControllers s !! k = Some c ∧ definedClusters !! k = None) ∧
    NoDup (attempts acts) ∧
    (∀ c, c ∈ attempts acts ↔ ∃ k, clusterControllers s' !! k = Some c).
Proof.
  intros Hwf.
  destruct (on_tick_exact definedClusters s Hwf) as ([] & s' & Hrun & acts & Hacts).
  exists s', acts. split; [by apply step_of_on_tick|done].
Qed.

(** X6: a tick on an empty snapshot ends every worker: from a well-formed
    state the map of workers becomes empty, the channel of every entry is
    closed, the factory is not called and nothing is sent. *)
Theorem tick_on_empty_snapshot_ends_all_workers s :
  wf s →
  ∃ s' acts,
    step (EvTick ∅ None) s = Ok Continue s' ∧
    trace s' = trace s ++ acts ∧
    clusterControllers s' = ∅ ∧
    (∀ k c, clusterControllers s !! k = Some c → closed s' c) ∧
    calls acts = [] ∧ attempts acts = [].
Proof.
  intros Hwf.
  destruct (runs_post _ _ _ _ (on_tick_spec ∅ s Hwf)
              (runs_is_post _ _ _ (on_tick_exact ∅ s Hwf)))
    as ([] & s' & Hrun & (_ & _ & acts1 & acts2 & acts3 & _ & _ & _ & _ & T1 & T2 & _)
        & acts & Htr & _ & Hcalls & _ & _ & _ & Hatt).
  assert (clusterControllers s' = ∅) as Hempty.
  { apply map_empty. intros k. destruct (clusterControllers s' !! k) as [c|] eqn:Hk; [|done].
    destruct (T1 k c Hk) as [? Hm]. by rewrite lookup_empty in Hm. }
  exists s', acts. split_and!; [by apply step_of_on_tick|done|done| | |].
  - intros k c Hk. by apply (T2 k c Hk), lookup_empty.
  - apply elem_of_nil_inv. intros k [[? Hm] _]%Hcalls. by rewrite lookup_empty in Hm.
  - apply elem_of_nil_inv. intros c [k Hk]%Hatt. by rewrite Hempty, lookup_empty in Hk.
Qed.

(** X7: in every run from a controller with no worker, every entry of the
    map of workers has a started worker: a non-nil worker built for that
    cluster name, with [ForCluster] of the root and the name as its
    directory, was handed the entry's channel. *)
Theorem registry_entries_have_started_workers ins dir w :
  ∃ r s',
    Run ins (init dir w) = Ok r s' ∧
    ∀ k c, clusterControllers s' !! k = Some c →
           ∃ wk, AGo (Some wk) c ∈ trace s' ∧ cc_clusterName wk = k ∧
                 cc_clusterAssetsDir wk = ForCluster dir k.
Proof.
  destruct (Run_full ins dir w) as (r & s' & Hrun & _ & (J1 & J2 & _) & Hdir & _).
  exists r, s'. split; [done|]. intros k c Hk.
  destruct (J1 k c Hk) as (wk & Hin & Hn). exists wk. split_and!; [done|done|].
  destruct (J2 _ _ Hin) as (wk' & [= <-] & Hd & _). by rewrite Hd, Hdir, Hn.
Qed.

(** X8: in every run from a controller with no worker, no started worker is
    lost: every worker handed to [go] is non-nil, and its channel is either
    still registered under the worker's cluster name or has been closed. *)
Theorem started_workers_are_registered_or_closed ins dir w :
  ∃ r s',
    Run ins (init dir w) = Ok r s' ∧
    ∀ cc c, AGo cc c ∈ trace s' →
            ∃ wk, cc = Some wk ∧
                  (AClose c ∈ trace s' ∨
                   clusterControllers s' !! cc_clusterName wk = Some c).
Proof.
  destruct (Run_full ins dir w) as (r & s' & Hrun & _ & (_ & J2 & _) & _).
  exists r, s'. split; [done|]. intros cc c Hin.
  destruct (J2 cc c Hin) as (wk & -> & _ & Hor). by exists wk.
Qed.

(** X9: in every run from a controller with no worker, the channels handed
    to workers are the channels of the heap in the order they were made:
    every channel made has one worker, and no two workers share a channel. *)
Theorem each_worker_has_its_own_channel ins dir w :
  ∃ r s',
    Run ins (init dir w) = Ok r s' ∧
    started (trace s') = seq 0 (length (chans s')) ∧
    NoDup (started (trace s')).
Proof.
  destruct (Run_full ins dir w) as (r & s' & Hrun & _ & (_ & _ & J3) & _).
  exists r, s'. split_and!; [done|done|]. rewrite J3. apply NoDup_seq.
Qed.

(** X10: when [Run] has returned, started on a controller with no worker,
    the channel of every worker it ever started is closed. *)
Theorem shutdown_ends_every_started_worker ins dir w :
  ∃ r s',
    Run ins (init dir w) = Ok r s' ∧
    (r = Return → ∀ cc c, AGo cc c ∈ trace s' → closed s' c).
Proof.
  destruct (Run_full ins dir w)
    as (r & s' & Hrun & [Hcl _] & (_ & J2 & _) & _ & Hret).
  exists r, s'. split; [done|]. intros Hr cc c Hin.
  destruct (J2 cc c Hin) as (wk & _ & _ & [Hclose|Hk]).
  - by apply Hcl.
  - by apply (Hret Hr _ c Hk).
Qed.


Lemma loop_returns_iff_done ins s :
  wf s → runs (loop ins) s (λ r _, r = Return ↔ Select EvDone ∈ ins).
Proof.
  revert s. induction ins as [|[e|c] ins IH]; intros s Hwf.
  - apply runs_ret. split; [done|]. by intros []%elem_of_nil.
  - destruct (step_spec e s Hwf) as (r & s' & Hstep & _ & Hcont & Hret).
    unfold runs. rewrite loop_select, Hstep. destruct r.
    + assert (e ≠ EvDone) as Hne by (intros ->; by specialize (Hret eq_refl)).
      destruct (IH s' (proj2 (Hcont Hne))) as (r' & s'' & Hrun & Hiff).
      exists r', s''. split; [done|]. rewrite Hiff, elem_of_cons. split; [by right|].
      intros [[= <-]|?]; [by destruct Hne|done].
    + exists Return, s'. split; [done|]. split; [|done]. intros _.
      destruct e as [k v|m err|]; [| |by left].
      * by destruct (Hcont ltac:(done)).
      * by destruct (Hcont ltac:(done)).
  - simpl. apply runs_bind. eapply runs_mono; [by apply worker_recv_spec|].
    intros [] s' (Hwf' & _). eapply runs_mono; [by apply IH|].
    intros r s'' Hiff. rewrite Hiff, elem_of_cons. split; [by right|].
    intros [?|?]; done.
Qed.

(** X12: a watch event for a cluster without a worker whose value does not
    decode is ignored: the decoder's error is logged, the factory is not
    called, and the map of workers, the channels and the world are as
    before. *)
Theorem watch_decode_error_is_ignored k v cluster e s :
  clusterControllers s !! k = None →
  json_Unmarshal (default [] v) = (cluster, Some e) →
  ∃ s', step (EvWatch k v) s = Ok Continue s' ∧
        clusterControllers s' = clusterControllers s ∧
        chans s' = chans s ∧ world s' = world s ∧
        trace s' = trace s ++ [ALog (LogUnmarshalErr k e)] ∧
        calls (trace s') = calls (trace s).
Proof.
  intros Hk Hjson. eexists. split.
  - simpl. unfold on_watch. unfold_M. rewrite Hk. simpl. by rewrite Hjson.
  - simpl. split_and!; try done. unfold calls. rewrite omap_app. simpl.
    by rewrite app_nil_r.
Qed.

(** X13: [Run] runs until the context is cancelled and for no other reason:
    started on a controller with no worker it never panics, and it has
    returned exactly when the shutdown signal is among the inputs; no error
    of the store, of the decoder or of the factory makes it return. *)
Theorem run_returns_exactly_on_shutdown ins dir w :
  ∃ r s', Run ins (init dir w) = Ok r s' ∧ (r = Return ↔ Select EvDone ∈ ins).
Proof.
  destruct (loop_returns_iff_done ins (add_trace [ALog LogStarted] (init dir w))
              (wf_init dir w)) as (r & s' & Hrun & Hiff).
  exists r, s'. split; [|done]. unfold Run, emit, mbind, M_bind. exact Hrun.
Qed.

End Exact.

(** * The further properties on the concrete environment *)


(** X3 on the controller with workers for "a" and "b". *)
Lemma tick_converges_to_snapshot_witness :
  ∃ s' acts,
    step (EvTick demo_snapshot None) demo_two = Ok Continue s' ∧
    trace s' = trace demo_two ++ acts ∧
    (∀ k, is_Some (demo_snapshot !! k) →
          is_Some (clusterControllers s' !! k) ∨ ∃ e, ALog (LogCreateErr k e) ∈ acts) ∧
    ((∀ k e, ALog (LogCreateErr k e) ∉ acts) →
     dom (clusterControllers s') = dom demo_snapshot).
Proof. exact (tick_converges_to_snapshot demo_snapshot demo_two wf_demo_two). Defined.

(** X4 on the worker of "a", which stays defined. *)
Lemma tick_keeps_running_workers_witness :
  ∃ s' acts,
    step (EvTick demo_snapshot None) demo_two = Ok Continue s' ∧
    trace s' = trace demo_two ++ acts ∧
    clusterControllers s' !! "a" = Some 0 ∧
    (∃ ch, chans s' !! 0 = Some ch ∧ chan_closed ch = false) ∧
    ("a" ∉ calls acts) ∧ (0 ∉ closes acts).
Proof.
  exact (tick_keeps_running_workers demo_snapshot demo_two "a" 0 wf_demo_two eq_refl
           (ex_intro _ demo_spec eq_refl)).
Defined.

(** X5 on the same controller and snapshot. *)
Lemma tick_actions_exactly_once_witness :
  ∃ s' acts,
    step (EvTick demo_snapshot None) demo_two = Ok Continue s' ∧
    trace s' = trace demo_two ++ acts ∧
    NoDup (calls acts) ∧
    (∀ k, k ∈ calls acts ↔
          is_Some (demo_snapshot !! k) ∧ clusterControllers demo_two !! k = None) ∧
    NoDup (closes acts) ∧
    (∀ c, c ∈ closes acts ↔
          ∃ k, clusterControllers demo_two !! k = Some c ∧ demo_snapshot !! k = None) ∧
    NoDup (attempts acts) ∧
    (∀ c, c ∈ attempts acts ↔ ∃ k, clusterControllers s' !! k = Some c).
Proof. exact (tick_actions_exactly_once demo_snapshot demo_two wf_demo_two). Defined.

(** X6 on the same controller. *)
Lemma tick_on_empty_snapshot_ends_all_workers_witness :
  ∃ s' acts,
    step (EvTick ∅ None) demo_two = Ok Continue s' ∧
    trace s' = trace demo_two ++ acts ∧
    clusterControllers s' = ∅ ∧
    (∀ k c, clusterControllers demo_two !! k = Some c → closed s' c) ∧
    calls acts = [] ∧ attempts acts = [].
Proof. exact (tick_on_empty_snapshot_ends_all_workers demo_two wf_demo_two). Defined.


(** The same, run: the old channel 0 is closed and "a" now has channel 1. *)
Example delete_then_create_on_demo_one :
  ∃ s',
    loop [Select (EvWatch "a" None); Select (EvWatch "a" (Some demo_spec))] demo_one
      = Ok Continue s' ∧
    map_to_list (clusterControllers s') = [("a", 1)] ∧
    chans s' = [Chan 10 0 true; Chan 10 1 false] ∧
    closes (trace s') = [0] ∧ started (trace s') = [1] ∧ attempts (trace s') = [1].
Proof. eexists. split; [vm_compute; reflexivity|]. by vm_compute. Qed.

(** X12 on a value the decoder refuses (the empty, non-nil slice). *)
Lemma watch_decode_error_is_ignored_witness :
  ∃ s', step (EvWatch "b" (Some [])) demo_one = Ok Continue s' ∧
        clusterControllers s' = clusterControllers demo_one ∧
        chans s' = chans demo_one ∧ world s' = world demo_one ∧
        trace s' = trace demo_one
                   ++ [ALog (LogUnmarshalErr "b" "unexpected end of JSON input")] ∧
        calls (trace s') = calls (trace demo_one).
Proof.
  exact (@watch_decode_error_is_ignored demo_env "b" (Some []) []
           "unexpected end of JSON input" demo_one eq_refl eq_refl).
Defined.
